(** * notify-mailer: checkpointed batch delivery

    A shallow embedding of [cmd/notify-mailer/main.go]: the checkpoint
    [interval], the [mailer] with its validation [ok] and its send loop [run],
    and the contact resolution [updateEmail] / [resolveDestinations].

    Conventions of the embedding.
    - Go [int] and [time.Duration] are [Z]; the code does no arithmetic on
      them, only comparisons, so no wrap-around is involved.
    - Go [string] is [string] (a sequence of bytes).
    - A Go slice is a window on a backing array: [len] elements are visible,
      [cap] are addressable, and a slice expression [s[low:high]] is legal up
      to [cap], not up to [len].
    - [error] values are [option (error E)], [None] being [nil].
    - Collaborators (the mail transport, the contact store) are interfaces
      whose methods thread an opaque state; every call made on them and every
      [Sleep] of the clock is appended to a trace of events. *)

From Stdlib Require Import ZArith String Ascii DecimalString List.
From stdpp Require Import base decidable option list gmap sets strings sorting.

Local Open Scope Z_scope.

(** ** Errors, outcomes, events *)

(** [fmt]'s [%d] verb on an integer. *)
Definition fmt_d (z : Z) : string := NilZero.string_of_int (Z.to_int z).

(** A Go [error]: either made here by [fmt.Errorf], or an opaque value [E]
    handed back by a collaborator. *)
Inductive error (E : Type) : Type :=
| Errorf (msg : string)
| ExtError (e : E).
Arguments Errorf {E} msg.
Arguments ExtError {E} e.

(** A call either returns or panics (run-time error). *)
Inductive outcome (A : Type) : Type :=
| Returned (a : A)
| Panicked (msg : string).
Arguments Returned {A} a.
Arguments Panicked {A} msg.

(** What the program does to the outside. *)
Inductive event : Type :=
| EvSelectOne (query : string) (id : Z)
| EvSendMail (to : list string) (subject body : string)
| EvSleep (d : Z).

(** The opaque state [S] of a collaborator and the trace so far. *)
Record World (S : Type) : Type := mkWorld { ext : S; trace : list event }.
Arguments mkWorld {S} ext trace.
Arguments ext {S} w.
Arguments trace {S} w.

Definition emit {S} (s : S) (e : event) (w : World S) : World S :=
  mkWorld s (trace w ++ [e]).

(** ** Go slices of strings *)

Record slice : Type := mkSlice { backing : list string; len : nat }.

Definition cap (s : slice) : nat := length (backing s).

(** The invariant of every slice value: [len <= cap]. *)
Definition slice_wf (s : slice) : Prop := (len s <= cap s)%nat.

(** The elements [range] visits. *)
Definition elems (s : slice) : list string := take (len s) (backing s).

(** A slice whose capacity is its length ([strings.Split] makes these). *)
Definition slice_of_list (l : list string) : slice := mkSlice l (length l).

(** [s[low:high]]: in range iff [0 <= low <= high <= cap(s)]; a run-time
    panic otherwise. *)
Definition reslice (s : slice) (low high : Z) : option slice :=
  if bool_decide (0 ≤ low ∧ low ≤ high ∧ high ≤ Z.of_nat (cap s))
  then Some (mkSlice (drop (Z.to_nat low) (backing s)) (Z.to_nat (high - low)))
  else None.

(** ** interval *)

Record interval : Type := mkInterval { start : Z; end_ : Z }.

(** [func (i * interval) ok() error] *)
Definition interval_ok {E} (i : interval) : option (error E) :=
  if bool_decide (start i < 0 ∨ end_ i < 0) then
    Some (Errorf ("interval start (" +:+ fmt_d (start i) +:+ ") and end ("
                  +:+ fmt_d (end_ i) +:+ ") must both be positive integers"))
  else if bool_decide (start i > end_ i ∧ end_ i ≠ 0) then
    Some (Errorf ("interval start value (" +:+ fmt_d (start i)
                  +:+ ") is greater than end value (" +:+ fmt_d (end_ i) +:+ ")"))
  else None.

(** ** mailer *)

(** [bmail.Mailer], as far as [run] uses it. *)
Record Mailer (TS E : Type) : Type := mkMailer {
  SendMail : TS → list string → string → string → TS * option (error E)
}.
Arguments mkMailer {TS E} SendMail.
Arguments SendMail {TS E} _ _ _ _ _.

Record mailer (TS E : Type) : Type := mk_mailer {
  mailer_ : Mailer TS E;
  subject : string;
  emailTemplate : string;
  destinations : slice;
  checkpoint : interval;
  sleepInterval : Z
}.
Arguments mk_mailer {TS E} _ _ _ _ _ _.
Arguments mailer_ {TS E} m.
Arguments subject {TS E} m.
Arguments emailTemplate {TS E} m.
Arguments destinations {TS E} m.
Arguments checkpoint {TS E} m.
Arguments sleepInterval {TS E} m.

(** [m.checkpoint.end = n] *)
Definition set_checkpoint_end {TS E} (m : mailer TS E) (n : Z) : mailer TS E :=
  mk_mailer (mailer_ m) (subject m) (emailTemplate m) (destinations m)
            (mkInterval (start (checkpoint m)) n) (sleepInterval m).

(** [func (m * mailer) ok() error] *)
Definition mailer_ok {TS E} (m : mailer TS E) : option (error E) :=
  match interval_ok (checkpoint m) with
  | Some checkpointErr => Some checkpointErr
  | None =>
    if bool_decide (start (checkpoint m) > Z.of_nat (len (destinations m))) then
      Some (Errorf ("interval start value (" +:+ fmt_d (start (checkpoint m))
                    +:+ ") is greater than number of destinations ("
                    +:+ fmt_d (Z.of_nat (len (destinations m))) +:+ ")"))
    else if bool_decide (sleepInterval m < 0) then
      Some (Errorf ("sleep interval (" +:+ fmt_d (sleepInterval m) +:+ ") is < 0"))
    else None
  end.

(** The step of [run] between validation and the loop:
    [if m.checkpoint.end == 0 { m.checkpoint.end = len(m.destinations) }]. *)
Definition normalize {TS E} (m : mailer TS E) : mailer TS E :=
  if bool_decide (end_ (checkpoint m) = 0)
  then set_checkpoint_end m (Z.of_nat (len (destinations m)))
  else m.

(** The elements at the indices [start, end) of the backing array of
    [m.destinations], [end] being [m.checkpoint.end] after [normalize]. *)
Definition selection {TS E} (m : mailer TS E) : list string :=
  let lo := Z.to_nat (start (checkpoint m)) in
  let hi := Z.to_nat (end_ (checkpoint (normalize m))) in
  drop lo (take hi (backing (destinations m))).

(** What delivering to one address leaves in the trace: the send, then the
    pause. *)
Definition delivery {TS E} (m : mailer TS E) (dest : string) : list event :=
  [EvSendMail [dest] (subject m) (emailTemplate m); EvSleep (sleepInterval m)].

(** The addresses the trace shows a send to, in order. *)
Definition sent_to (tr : list event) : list string :=
  flat_map (fun ev => match ev with EvSendMail to _ _ => to | _ => [] end) tr.

(** [sends_ok m ts l ts']: from the transport state [ts], [SendMail] called
    for each address of [l] in turn, with the job's subject and body, returns
    nil each time and leaves the state [ts']. *)
Inductive sends_ok {TS E : Type} (m : mailer TS E) : TS → list string → TS → Prop :=
| sends_ok_nil (ts : TS) : sends_ok m ts [] ts
| sends_ok_cons (ts ts1 ts' : TS) (d : string) (l : list string) :
    SendMail (mailer_ m) ts [d] (subject m) (emailTemplate m) = (ts1, None) →
    sends_ok m ts1 l ts' →
    sends_ok m ts (d :: l) ts'.

(** What visiting the elements [l] from the world [w] comes to, in terms of
    [SendMail] alone. Either every non-blank element of [l] was sent to, in
    order, each send returning nil and being followed by a pause, and the
    result is nil; or these sends went through for the non-blank elements
    before some non-blank [d], the send to [d] returned an error, that error
    is the result and that send is the last event. Blank elements are in
    neither the trace nor the chain of transport states. *)
Definition delivered {TS E : Type} (TrimSpace : string → string) (m : mailer TS E)
    (l : list string) (w : World TS) (err : option (error E)) (w1 : World TS) : Prop :=
  (err = None
   ∧ sends_ok m (ext w) (filter (λ d, TrimSpace d ≠ "") l) (ext w1)
   ∧ trace w1 = trace w ++ flat_map (delivery m) (filter (λ d, TrimSpace d ≠ "") l))
  ∨ (∃ (pre post : list string) (d : string) (ts : TS) (e : error E),
       l = pre ++ d :: post ∧ TrimSpace d ≠ ""
       ∧ sends_ok m (ext w) (filter (λ d, TrimSpace d ≠ "") pre) ts
       ∧ SendMail (mailer_ m) ts [d] (subject m) (emailTemplate m) = (ext w1, Some e)
       ∧ err = Some e
       ∧ trace w1 = trace w
                    ++ flat_map (delivery m) (filter (λ d, TrimSpace d ≠ "") pre)
                    ++ [EvSendMail [d] (subject m) (emailTemplate m)]).

Section Engine.
Context {TS E : Type}.
(** [strings.TrimSpace] *)
Variable TrimSpace : string → string.

(** [m.clk.Sleep(d)] *)
Definition clk_Sleep (d : Z) (w : World TS) : World TS :=
  emit (ext w) (EvSleep d) w.

(** [m.mailer.SendMail([]string{dest}, m.subject, m.emailTemplate)] *)
Definition send_one (m : mailer TS E) (dest : string) (w : World TS)
  : option (error E) * World TS :=
  let '(ts, err) := SendMail (mailer_ m) (ext w) [dest] (subject m) (emailTemplate m) in
  (err, emit ts (EvSendMail [dest] (subject m) (emailTemplate m)) w).

(** The body of the [for _, dest := range ...] loop of [run], over the
    elements still to visit. *)
Fixpoint send_loop (m : mailer TS E) (dests : list string) (w : World TS)
  : option (error E) * World TS :=
  match dests with
  | [] => (None, w)
  | dest :: rest =>
    if bool_decide (TrimSpace dest = "") then send_loop m rest w
    else
      match send_one m dest w with
      | (Some err, w1) => (Some err, w1)
      | (None, w1) => send_loop m rest (clk_Sleep (sleepInterval m) w1)
      end
  end.

(** [func (m * mailer) run() error]: the receiver after the call, what the call did, and
    the world after it. *)
Definition run (m : mailer TS E) (w : World TS)
  : mailer TS E * outcome (option (error E)) * World TS :=
  match mailer_ok m with
  | Some err => (m, Returned (Some err), w)
  | None =>
    let m1 := normalize m in
    match reslice (destinations m1) (start (checkpoint m1)) (end_ (checkpoint m1)) with
    | None => (m1, Panicked "slice bounds out of range", w)
    | Some s =>
      let '(err, w1) := send_loop m1 (elems s) w in
      (m1, Returned err, w1)
    end
  end.
End Engine.

(** ** Contact resolution *)

(** Modelled from the spec: [bmail.MailerDestination] is declared in the
    [mail] package; the descriptor carries an account id, a possibly-null
    serialized contact blob and the derived email string. *)
Record MailerDestination : Type := mkDest {
  ID : Z;
  Contact : option string;
  Email : string
}.

(** [dbSelector]: [SelectOne(holder, query, args...)] fills the holder and
    returns an error or nil; [id] is the value bound to [:id]. *)
Record dbSelector (DB E : Type) : Type := mkSelector {
  SelectOne : DB → MailerDestination → string → Z
              → DB * (MailerDestination * option (error E))
}.
Arguments mkSelector {DB E} SelectOne.
Arguments SelectOne {DB E} _ _ _ _ _.

(** The query text of [updateEmail]. *)
Definition registrationQuery : string :=
  "SELECT id, contact
		FROM registrations
		WHERE contact != 'null' AND id = :id;".

(** [sort.Strings]: increasing order for Go's [<] on strings, which compares
    byte by byte. *)
Definition sort_Strings (l : list string) : list string := merge_sort String.le l.

Section Resolver.
Context {DB E : Type}.
(** [strings.TrimSpace] *)
Variable TrimSpace : string → string.
(** The method [UnmarshalEmail] of [MailerDestination], declared in the
    [mail] package: sets
    [Email] from [Contact], or fails. *)
Variable UnmarshalEmail : MailerDestination → MailerDestination * option (error E).
(** The order in which [range] walks a map; Go leaves it unspecified. *)
Variable range_order : gset string → list string.

(** [updateEmail]: the descriptor after the call (it is updated in place)
    and the error. *)
Definition updateEmail (dbMap : dbSelector DB E) (contact : MailerDestination)
    (w : World DB) : (MailerDestination * option (error E)) * World DB :=
  let id := ID contact in
  let '(db, (contact1, err)) := SelectOne dbMap (ext w) contact registrationQuery id in
  let w1 := emit db (EvSelectOne registrationQuery id) w in
  match err with
  | Some e => ((contact1, Some e), w1)
  | None => (UnmarshalEmail contact1, w1)
  end.

(** The first loop of [resolveDestinations], over the descriptors still to
    visit: the error of the failing [updateEmail], or the final
    [contactMap]. *)
Fixpoint resolve_loop (dbMap : dbSelector DB E) (contacts : list MailerDestination)
    (contactMap : gset string) (w : World DB)
  : (error E + gset string) * World DB :=
  match contacts with
  | [] => (inr contactMap, w)
  | c :: rest =>
    match updateEmail dbMap c w with
    | ((_, Some err), w1) => (inl err, w1)
    | ((c1, None), w1) =>
      if bool_decide (TrimSpace (Email c1) = "")
      then resolve_loop dbMap rest contactMap w1
      else resolve_loop dbMap rest ({[ Email c1 ]} ∪ contactMap) w1
    end
  end.

(** [resolveDestinations]: the elements of the returned slice (empty for
    [nil]) and the error. *)
Definition resolveDestinations (contacts : list MailerDestination)
    (dbMap : dbSelector DB E) (w : World DB)
  : (list string * option (error E)) * World DB :=
  match resolve_loop dbMap contacts ∅ w with
  | (inl err, w1) => (([], Some err), w1)
  | (inr contactMap, w1) => ((sort_Strings (range_order contactMap), None), w1)
  end.

(** The emails the descriptors resolve to, in descriptor order, blank ones
    included: what [c.Email] holds after each successful [updateEmail]. *)
Fixpoint resolved_emails (dbMap : dbSelector DB E) (contacts : list MailerDestination)
    (w : World DB) : list string :=
  match contacts with
  | [] => []
  | c :: rest =>
    match updateEmail dbMap c w with
    | ((_, Some _), _) => []
    | ((c1, None), w1) => Email c1 :: resolved_emails dbMap rest w1
    end
  end.
End Resolver.

(** ** The job [main] builds *)

(** The pauses the trace shows, in order. *)
Definition slept (tr : list event) : list Z :=
  flat_map (fun ev => match ev with EvSleep d => [d] | _ => [] end) tr.

(** The mailer [m] with another checkpoint: [main] fills [checkpoint] from
    the flags [-start] and [-end]. *)
Definition with_checkpoint {TS E} (m : mailer TS E) (i : interval) : mailer TS E :=
  mk_mailer (mailer_ m) (subject m) (emailTemplate m) (destinations m) i
            (sleepInterval m).

(** [strings.Split(s, "\n")]: the pieces of [s] between newlines, one more
    than there are newlines. *)
Fixpoint Split_newline (s : string) : list string :=
  match s with
  | EmptyString => [EmptyString]
  | String a rest =>
    if Ascii.eqb a "010"%char then EmptyString :: Split_newline rest
    else
      match Split_newline rest with
      | piece :: pieces => String a piece :: pieces
      | [] => [String a EmptyString]
      end
  end.

(** The defaults of the flags [-start], [-end] and [-sleep] (60 seconds, in
    nanoseconds). *)
Definition default_start : Z := 0.
Definition default_end : Z := 99999999.
Definition default_sleep : Z := 60 * 1000000000.

(** The mailer [main] builds under [-emails]: the lines of the file are the
    destinations as they are; [strings.Split] returns a slice filled to its
    capacity. *)
Definition emails_job {TS E} (mailClient : Mailer TS E) (subjectFlag body toBody : string)
    (sleepFlag startFlag endFlag : Z) : mailer TS E :=
  mk_mailer mailClient subjectFlag body (slice_of_list (Split_newline toBody))
            (mkInterval startFlag endFlag) sleepFlag.

(** ** Collaborators used in the examples *)

(** Go's [asciiSpace] table. *)
Definition asciiSpace (a : ascii) : bool :=
  match N_of_ascii a with
  | 9%N | 10%N | 11%N | 12%N | 13%N | 32%N => true
  | _ => false
  end.

Fixpoint trimLeft (s : string) : string :=
  match s with
  | String a s1 => if asciiSpace a then trimLeft s1 else s
  | EmptyString => EmptyString
  end.

(** [strings.TrimSpace] on strings of ASCII bytes. *)
Definition asciiTrimSpace (s : string) : string :=
  String.rev (trimLeft (String.rev (trimLeft s))).

(** A transport that counts its calls and fails, with [e], on call number
    [n] (from 0) and on no other. *)
Definition failing_transport {E} (n : nat) (e : E) : Mailer nat E :=
  mkMailer (fun calls _ _ _ =>
    (S calls, if Nat.eqb calls n then Some (ExtError e) else None)).

(** A transport that never fails. *)
Definition good_transport {E} : Mailer nat E :=
  mkMailer (fun calls _ _ _ => (S calls, None)).

(** A store holding a table from account id to contact; an id that is not in
    the table is an error. *)
Definition table_store (rows : list (Z * string)) : dbSelector unit string :=
  mkSelector (fun db holder _ id =>
    match List.find (fun r => Z.eqb (fst r) id) rows with
    | Some r => (db, (mkDest (fst r) (Some (snd r)) (Email holder), None))
    | None => (db, (holder, Some (ExtError "sql: no rows in result set")))
    end).

(** A store that answers the query of [updateEmail] as the database does:
    the row of the given id whose contact is not the JSON text [null]; no
    such row is an error ([sql.ErrNoRows]). *)
Definition registrations (rows : list (Z * string)) : dbSelector unit string :=
  mkSelector (fun db holder _ id =>
    match List.find (fun r => Z.eqb (fst r) id && negb (String.eqb (snd r) "null")) rows with
    | Some r => (db, (mkDest (fst r) (Some (snd r)) (Email holder), None))
    | None => (db, (holder, Some (ExtError "sql: no rows in result set")))
    end).

(** A parser that takes the contact blob for the email, and a missing blob
    for the empty email. *)
Definition plain_UnmarshalEmail {E} (md : MailerDestination)
  : MailerDestination * option (error E) :=
  (mkDest (ID md) (Contact md) (default "" (Contact md)), None).

(** ** Jobs, stores and descriptors used in the examples *)

Definition fresh : World nat := mkWorld 0%nat [].

(** Three destinations, the whole list selected, a transport failing on its
    second send. *)
Definition abc_job : mailer nat string :=
  mk_mailer (failing_transport 1 "boom") "subject" "body"
            (slice_of_list ["a@x"; "b@x"; "c@x"]) (mkInterval 0 0) 5.

(** One destination, failing at once. *)
Definition a_job : mailer nat string :=
  mk_mailer (failing_transport 0 "boom") "subject" "body"
            (slice_of_list ["a@x"]) (mkInterval 0 0) 5.

(** A list with blank entries and a transport that never fails. *)
Definition blank_job : mailer nat string :=
  mk_mailer good_transport "subject" "body"
            (slice_of_list ["a@x"; "  "; ""; "b@x"; "c@x"]) (mkInterval 1 0) 5.


(** Three destinations in a backing array of four, as [append] leaves them,
    and an end of 4. *)
Definition spare_job : mailer nat string :=
  mk_mailer good_transport "subject" "body"
            (mkSlice ["a@x"; "b@x"; "c@x"; ""] 3) (mkInterval 0 4) 5.

(** Three destinations filling their backing array, and an end of 4. *)
Definition tight_job : mailer nat string :=
  mk_mailer good_transport "subject" "body"
            (slice_of_list ["a@x"; "b@x"; "c@x"]) (mkInterval 0 4) 5.

(** A store of four accounts; account 3 has a blank contact, accounts 2
    and 4 share one. *)
Definition accounts : dbSelector unit string :=
  table_store [(1, "b@x"); (2, "a@x"); (3, "  "); (4, "a@x")].

(** A descriptor as read from the input: an id, nothing else. *)
Definition account (id : Z) : MailerDestination := mkDest id None "".

Definition unseen : World unit := mkWorld tt [].

(** Three destinations, the whole list selected, a transport that never
    fails. *)
Definition good_job : mailer nat string :=
  mk_mailer good_transport "subject" "body"
            (slice_of_list ["a@x"; "b@x"; "c@x"]) (mkInterval 0 0) 5.

(** A start at the end of the three destinations. *)
Definition done_job : mailer nat string :=
  mk_mailer good_transport "subject" "body"
            (slice_of_list ["a@x"; "b@x"; "c@x"]) (mkInterval 3 0) 5.

(** A file of two lines, each ended by a newline. *)
Definition two_lines : string :=
  "a@x" +:+ String "010"%char ("b@x" +:+ String "010"%char EmptyString).

(** A parser that fails on an opening brace without its closing one and
    takes any other contact blob for the email. *)
Definition picky_UnmarshalEmail (md : MailerDestination)
  : MailerDestination * option (error string) :=
  if bool_decide (Contact md = Some "{")
  then (md, Some (ExtError "unexpected end of JSON input"))
  else plain_UnmarshalEmail md.

(** A store whose account 5 has a contact that does not parse. *)
Definition broken_accounts : dbSelector unit string :=
  table_store [(1, "b@x"); (5, "{"); (2, "a@x")].

(** Registrations of which account 7 has a null contact. *)
Definition null_contact_rows : dbSelector unit string :=
  registrations [(1, "b@x"); (7, "null"); (2, "a@x")].

(** * Properties *)

(** ** Slices *)

Lemma reslice_Some (s : slice) (low high : Z) :
  0 ≤ low → low ≤ high → high ≤ Z.of_nat (cap s) →
  reslice s low high
  = Some (mkSlice (drop (Z.to_nat low) (backing s)) (Z.to_nat (high - low))).
Proof.
  intros Hlow Hle Hcap. unfold reslice.
  rewrite bool_decide_eq_true_2; [reflexivity | auto].
Qed.

Lemma reslice_None (s : slice) (low high : Z) :
  Z.of_nat (cap s) < high → reslice s low high = None.
Proof.
  intros Hcap. unfold reslice.
  rewrite bool_decide_eq_false_2; [reflexivity | lia].
Qed.

Lemma elems_reslice (l : list string) (low high : Z) :
  0 ≤ low → low ≤ high →
  elems (mkSlice (drop (Z.to_nat low) l) (Z.to_nat (high - low)))
  = drop (Z.to_nat low) (take (Z.to_nat high) l).
Proof.
  intros Hlow Hle. unfold elems; simpl.
  rewrite take_drop_commute. f_equal. f_equal. lia.
Qed.

(** ** Validation *)

Lemma interval_ok_None_iff {E} (i : interval) :
  @interval_ok E i = None
  ↔ 0 ≤ start i ∧ 0 ≤ end_ i ∧ (start i ≤ end_ i ∨ end_ i = 0).
Proof.
  unfold interval_ok. repeat case_bool_decide; split; intros; try discriminate;
    try reflexivity; lia.
Qed.

Lemma mailer_ok_None_iff {TS E} (m : mailer TS E) :
  mailer_ok m = None
  ↔ @interval_ok E (checkpoint m) = None
    ∧ start (checkpoint m) ≤ Z.of_nat (len (destinations m))
    ∧ 0 ≤ sleepInterval m.
Proof.
  unfold mailer_ok. destruct (interval_ok (checkpoint m)) eqn:Hi.
  - split; [discriminate | intros [? _]; discriminate].
  - repeat case_bool_decide; split; intros; try discriminate;
      try reflexivity; intuition lia.
Qed.


Lemma normalize_fields {TS E} (m : mailer TS E) :
  mailer_ m = mailer_ (normalize m) ∧ subject (normalize m) = subject m
  ∧ emailTemplate (normalize m) = emailTemplate m
  ∧ destinations (normalize m) = destinations m
  ∧ start (checkpoint (normalize m)) = start (checkpoint m)
  ∧ sleepInterval (normalize m) = sleepInterval m.
Proof. unfold normalize. case_bool_decide; repeat split. Qed.

(** ** The send loop *)

Section EngineFacts.
Context {TS E : Type}.
Variable TrimSpace : string → string.

Lemma send_loop_normalize (m : mailer TS E) (l : list string) (w : World TS) :
  send_loop TrimSpace (normalize m) l w = send_loop TrimSpace m l w.
Proof.
  unfold normalize. case_bool_decide; [| reflexivity].
  revert w. induction l as [| d l IH]; intros w; simpl; [reflexivity |].
  case_bool_decide; [apply IH |].
  unfold send_one; simpl.
  destruct (SendMail _ _ _ _ _) as [ts [e |]]; [reflexivity | apply IH].
Qed.

Lemma send_loop_app (m : mailer TS E) (l1 l2 : list string) (w : World TS) :
  send_loop TrimSpace m (l1 ++ l2) w
  = match send_loop TrimSpace m l1 w with
    | (None, w1) => send_loop TrimSpace m l2 w1
    | (Some err, w1) => (Some err, w1)
    end.
Proof.
  revert w. induction l1 as [| d l1 IH]; intros w; simpl.
  - reflexivity.
  - case_bool_decide; [apply IH |].
    destruct (send_one m d w) as [[e |] w1]; [reflexivity | apply IH].
Qed.

(** A failing send ends the loop where it stands. *)
Lemma send_loop_fail (m : mailer TS E) (d : string) (post : list string)
    (w : World TS) (ts : TS) (err : error E) :
  TrimSpace d ≠ "" →
  SendMail (mailer_ m) (ext w) [d] (subject m) (emailTemplate m) = (ts, Some err) →
  send_loop TrimSpace m (d :: post) w
  = (Some err, emit ts (EvSendMail [d] (subject m) (emailTemplate m)) w).
Proof.
  intros Hd Hsend. simpl. rewrite bool_decide_eq_false_2 by exact Hd.
  unfold send_one. rewrite Hsend. reflexivity.
Qed.

(** The trace of a loop: a send and a pause for each non-blank element, in
    order, cut short after the send that fails. *)
Lemma send_loop_trace (m : mailer TS E) (l : list string) (w w1 : World TS)
    (err : option (error E)) :
  send_loop TrimSpace m l w = (err, w1) →
  match err with
  | None =>
    trace w1 = trace w ++ flat_map (delivery m) (filter (λ d, TrimSpace d ≠ "") l)
  | Some _ =>
    ∃ pre d post,
      l = pre ++ d :: post ∧ TrimSpace d ≠ ""
      ∧ trace w1 = trace w
                   ++ flat_map (delivery m) (filter (λ d, TrimSpace d ≠ "") pre)
                   ++ [EvSendMail [d] (subject m) (emailTemplate m)]
  end.
Proof.
  revert w. induction l as [| d l IH]; intros w Hloop; simpl in Hloop.
  - injection Hloop as <- <-. simpl. rewrite app_nil_r. reflexivity.
  - case_bool_decide as Hd.
    + specialize (IH _ Hloop). destruct err as [e |].
      * destruct IH as (pre & d' & post & -> & Hd' & Htr).
        exists (d :: pre), d', post. split; [reflexivity |]. split; [exact Hd' |].
        rewrite filter_cons_False by (intros Hn; apply Hn, Hd). exact Htr.
      * rewrite filter_cons_False by (intros Hn; apply Hn, Hd). exact IH.
    + unfold send_one in Hloop.
      destruct (SendMail _ _ _ _ _) as [ts [e |]].
      * injection Hloop as <- <-. exists [], d, l. simpl.
        split; [reflexivity |]. split; [exact Hd | reflexivity].
      * specialize (IH _ Hloop). simpl in IH. destruct err as [e |].
        -- destruct IH as (pre & d' & post & -> & Hd' & Htr).
           exists (d :: pre), d', post. split; [reflexivity |]. split; [exact Hd' |].
           rewrite filter_cons_True by exact Hd. simpl.
           rewrite Htr. rewrite <- !app_assoc. reflexivity.
        -- rewrite filter_cons_True by exact Hd. simpl.
           rewrite IH. rewrite <- !app_assoc. reflexivity.
Qed.

(** The loop in terms of [SendMail]: the error it returns is the one a send
    returned, the transport is in the state the sends left it in, and the
    trace holds the sends made and the pauses after those that went through. *)
Lemma send_loop_delivered (m : mailer TS E) (l : list string) (w w1 : World TS)
    (err : option (error E)) :
  send_loop TrimSpace m l w = (err, w1) → delivered TrimSpace m l w err w1.
Proof.
  revert w. induction l as [| d l IH]; intros w Hloop; simpl in Hloop.
  - injection Hloop as <- <-. left. split; [reflexivity |]. split; [constructor |].
    simpl. rewrite app_nil_r. reflexivity.
  - case_bool_decide as Hd.
    + destruct (IH _ Hloop) as [(-> & Hsent & Htr) | Hfail].
      * left. rewrite filter_cons_False by (intros Hn; apply Hn, Hd).
        split; [reflexivity |]. split; assumption.
      * destruct Hfail as (pre & post & d' & ts & e & -> & Hd' & Hsent & Hsend & -> & Htr).
        right. exists (d :: pre), post, d', ts, e.
        rewrite filter_cons_False by (intros Hn; apply Hn, Hd).
        repeat (split; [first [reflexivity | assumption] |]). exact Htr.
    + unfold send_one in Hloop.
      destruct (SendMail (mailer_ m) (ext w) [d] (subject m) (emailTemplate m))
        as [ts [e |]] eqn:Hsend.
      * injection Hloop as <- <-. right. exists [], l, d, (ext w), e. simpl.
        split; [reflexivity |]. split; [exact Hd |]. split; [constructor |].
        split; [exact Hsend |]. split; reflexivity.
      * destruct (IH _ Hloop) as [(-> & Hsent & Htr) | Hfail]; simpl in *.
        -- left. rewrite filter_cons_True by exact Hd.
           split; [reflexivity |]. split; [econstructor; eassumption |].
           simpl. rewrite Htr, <- !app_assoc. reflexivity.
        -- destruct Hfail
             as (pre & post & d' & ts' & e & -> & Hd' & Hsent & Hsend' & -> & Htr).
           right. exists (d :: pre), post, d', ts', e.
           rewrite filter_cons_True by exact Hd.
           split; [reflexivity |]. split; [exact Hd' |].
           split; [econstructor; eassumption |]. split; [exact Hsend' |].
           split; [reflexivity |]. simpl. rewrite Htr, <- !app_assoc. reflexivity.
Qed.

(** Past validation and with the upper bound within the capacity, [run] is
    the loop over the selection. *)
Lemma run_in_range (m : mailer TS E) (w : World TS) :
  slice_wf (destinations m) → mailer_ok m = None →
  end_ (checkpoint m) = 0 ∨ end_ (checkpoint m) ≤ Z.of_nat (cap (destinations m)) →
  run TrimSpace m w
  = (normalize m, Returned (send_loop TrimSpace m (selection m) w).1,
     (send_loop TrimSpace m (selection m) w).2).
Proof.
  intros Hwf Hok Hend. unfold run. rewrite Hok.
  apply mailer_ok_None_iff in Hok as (Hi & Hstart & _).
  apply interval_ok_None_iff in Hi as (H0 & H1 & H2).
  destruct (normalize_fields m) as (_ & _ & _ & Hd & Hs & _).
  rewrite Hd, Hs. unfold slice_wf in Hwf.
  assert (start (checkpoint m) ≤ end_ (checkpoint (normalize m))
          ∧ end_ (checkpoint (normalize m)) ≤ Z.of_nat (cap (destinations m)))
    as [Hlo Hhi].
  { unfold normalize. case_bool_decide; simpl; lia. }
  rewrite reslice_Some by assumption.
  rewrite elems_reslice by assumption.
  rewrite send_loop_normalize. fold (selection m).
  destruct (send_loop TrimSpace m (selection m) w); reflexivity.
Qed.
End EngineFacts.

(** ** The claims on [interval.ok], [mailer.ok] and [run] *)

(** C5. [interval.ok] fails exactly when [start < 0] or [end < 0], or when
    [start > end] with [end <> 0]; it succeeds exactly when
    [0 <= start <= end], or [end = 0] with [start >= 0]. It is a function of
    the interval alone: it reads no state and returns none. *)
Theorem interval_ok_spec (E : Type) (i : interval) :
  (is_Some (@interval_ok E i)
   ↔ (start i < 0 ∨ end_ i < 0) ∨ (start i > end_ i ∧ end_ i ≠ 0))
  ∧ (@interval_ok E i = None
     ↔ (0 ≤ start i ∧ start i ≤ end_ i) ∨ (end_ i = 0 ∧ 0 ≤ start i)).
Proof.
  split.
  - unfold interval_ok. repeat case_bool_decide; split; intros Hfail;
      try (eexists; reflexivity); try lia.
    destruct Hfail as [x Hx]; discriminate.
  - rewrite interval_ok_None_iff. lia.
Qed.



(** C9. A job that passes validation with [end = 0] has [end] rewritten to
    [len(destinations)], and [run] visits the elements at the indices
    [start, len(destinations)), in list order: it is the loop over them, and
    in terms of [SendMail] it sends to each non-blank one of them in turn, up
    to the end or to the send that fails. *)
Theorem run_end_sentinel {TS E : Type} (TrimSpace : string → string)
    (m : mailer TS E) (w : World TS) :
  slice_wf (destinations m) → mailer_ok m = None → end_ (checkpoint m) = 0 →
  let visited := drop (Z.to_nat (start (checkpoint m))) (elems (destinations m)) in
  ∃ m1 err w1,
    run TrimSpace m w = (m1, Returned err, w1)
    ∧ m1 = set_checkpoint_end m (Z.of_nat (len (destinations m)))
    ∧ end_ (checkpoint m1) = Z.of_nat (len (destinations m))
    ∧ send_loop TrimSpace m visited w = (err, w1)
    ∧ (∀ i : nat, visited !! i
                  = elems (destinations m) !! (Z.to_nat (start (checkpoint m)) + i)%nat)
    ∧ length visited = (len (destinations m) - Z.to_nat (start (checkpoint m)))%nat
    ∧ delivered TrimSpace m visited w err w1.
Proof.
  intros Hwf Hok Hend visited.
  assert (selection m = visited) as Hsel.
  { unfold selection, visited, elems, normalize.
    rewrite bool_decide_eq_true_2 by exact Hend. simpl.
    rewrite Nat2Z.id. reflexivity. }
  destruct (send_loop TrimSpace m visited w) as [err w1] eqn:Hloop.
  exists (normalize m), err, w1. split.
  { rewrite run_in_range; [| exact Hwf | exact Hok | left; exact Hend].
    rewrite Hsel, Hloop. reflexivity. }
  unfold normalize. rewrite bool_decide_eq_true_2 by exact Hend.
  split; [reflexivity |]. split; [reflexivity |]. split; [reflexivity |].
  split; [intros i; unfold visited; apply lookup_drop |].
  split.
  - unfold visited, elems. rewrite length_drop, length_take.
    unfold slice_wf, cap in Hwf. lia.
  - apply send_loop_delivered. exact Hloop.
Qed.

Lemma run_end_sentinel_witness :
  ∃ m1 err w1,
    run asciiTrimSpace blank_job fresh = (m1, Returned err, w1)
    ∧ m1 = set_checkpoint_end blank_job 5
    ∧ end_ (checkpoint m1) = 5
    ∧ send_loop asciiTrimSpace blank_job ["  "; ""; "b@x"; "c@x"] fresh = (err, w1)
    ∧ (∀ i : nat, ["  "; ""; "b@x"; "c@x"] !! i
                  = ["a@x"; "  "; ""; "b@x"; "c@x"] !! (1 + i)%nat)
    ∧ length ["  "; ""; "b@x"; "c@x"] = (5 - 1)%nat
    ∧ delivered asciiTrimSpace blank_job ["  "; ""; "b@x"; "c@x"] fresh err w1.
Proof.
  apply (run_end_sentinel asciiTrimSpace blank_job fresh).
  - unfold slice_wf. vm_compute. lia.
  - vm_compute. reflexivity.
  - reflexivity.
Defined.

Section EngineClaims.
Context {TS E : Type}.
Variable TrimSpace : string → string.

(** The loop reaching a send that fails, after a prefix that went through. *)
Lemma send_loop_fail_after (m : mailer TS E) (pre post : list string) (d : string)
    (w w1 : World TS) (ts : TS) (err : error E) :
  send_loop TrimSpace m pre w = (None, w1) →
  TrimSpace d ≠ "" →
  SendMail (mailer_ m) (ext w1) [d] (subject m) (emailTemplate m) = (ts, Some err) →
  send_loop TrimSpace m (pre ++ d :: post) w
  = (Some err, emit ts (EvSendMail [d] (subject m) (emailTemplate m)) w1).
Proof.
  intros Hpre Hd Hsend. rewrite send_loop_app, Hpre.
  apply send_loop_fail; assumption.
Qed.


(** C1. When the sends before an address of the selected slice went
    through and the send to that address fails, [run] returns the error at
    once: the trace ends with that one send, whatever follows the address
    in the slice, and the sends and sleeps made before it are still there. *)
Theorem run_fail_fast (m : mailer TS E) (w w1 : World TS)
    (pre post : list string) (d : string) (ts : TS) (err : error E) :
  slice_wf (destinations m) → mailer_ok m = None →
  end_ (checkpoint m) = 0 ∨ end_ (checkpoint m) ≤ Z.of_nat (cap (destinations m)) →
  selection m = pre ++ d :: post →
  send_loop TrimSpace m pre w = (None, w1) →
  TrimSpace d ≠ "" →
  SendMail (mailer_ m) (ext w1) [d] (subject m) (emailTemplate m) = (ts, Some err) →
  run TrimSpace m w
  = (normalize m, Returned (Some err),
     mkWorld ts (trace w1 ++ [EvSendMail [d] (subject m) (emailTemplate m)]))
  ∧ trace w1 = trace w ++ flat_map (delivery m) (filter (λ d, TrimSpace d ≠ "") pre).
Proof.
  intros Hwf Hok Hend Hsel Hpre Hd Hsend. split.
  - rewrite run_in_range by assumption. rewrite Hsel.
    rewrite (send_loop_fail_after m pre post d w w1 ts err) by assumption.
    reflexivity.
  - exact (send_loop_trace TrimSpace m pre w w1 None Hpre).
Qed.

(** C2, amended. When the send to an address fails, the error [run]
    returns is the error value [SendMail] returned, as it is: [run] adds
    neither the address nor its index to it. *)
Theorem run_returns_cause_unchanged (m : mailer TS E) (w w1 : World TS)
    (pre post : list string) (d : string) (ts : TS) (err : error E) :
  slice_wf (destinations m) → mailer_ok m = None →
  end_ (checkpoint m) = 0 ∨ end_ (checkpoint m) ≤ Z.of_nat (cap (destinations m)) →
  selection m = pre ++ d :: post →
  send_loop TrimSpace m pre w = (None, w1) →
  TrimSpace d ≠ "" →
  SendMail (mailer_ m) (ext w1) [d] (subject m) (emailTemplate m) = (ts, Some err) →
  (run TrimSpace m w).1.2 = Returned (Some err).
Proof.
  intros Hwf Hok Hend Hsel Hpre Hd Hsend.
  rewrite run_in_range by assumption. rewrite Hsel.
  rewrite (send_loop_fail_after m pre post d w w1 ts err) by assumption.
  reflexivity.
Qed.

(** C3, amended. With [end <> 0] above the capacity of [destinations]
    (which is at least its length), validation succeeds and [run] panics
    on the slice expression, before any send. *)
Theorem run_end_past_capacity (m : mailer TS E) (w : World TS) :
  slice_wf (destinations m) →
  end_ (checkpoint m) ≠ 0 →
  end_ (checkpoint m) > Z.of_nat (cap (destinations m)) →
  0 ≤ start (checkpoint m) →
  start (checkpoint m) ≤ Z.of_nat (len (destinations m)) →
  start (checkpoint m) ≤ end_ (checkpoint m) →
  0 ≤ sleepInterval m →
  mailer_ok m = None
  ∧ end_ (checkpoint m) > Z.of_nat (len (destinations m))
  ∧ run TrimSpace m w = (m, Panicked "slice bounds out of range", w).
Proof.
  intros Hwf Hne Hcap H0 Hlen Hle Hp. unfold slice_wf in Hwf.
  assert (mailer_ok m = None) as Hok.
  { apply mailer_ok_None_iff. split; [| lia].
    apply interval_ok_None_iff. lia. }
  split; [exact Hok |]. split; [lia |].
  unfold run. rewrite Hok. unfold normalize.
  rewrite bool_decide_eq_false_2 by exact Hne.
  rewrite reslice_None by lia. reflexivity.
Qed.
End EngineClaims.

(** *** The engine claims on the example jobs *)



Lemma run_fail_fast_witness :
  run asciiTrimSpace abc_job fresh
  = (normalize abc_job, Returned (Some (ExtError "boom")),
     mkWorld 2%nat
       ([EvSendMail ["a@x"] "subject" "body"; EvSleep 5]
        ++ [EvSendMail ["b@x"] "subject" "body"]))
  ∧ [EvSendMail ["a@x"] "subject" "body"; EvSleep 5]
    = trace fresh
      ++ flat_map (delivery abc_job) (filter (λ d, asciiTrimSpace d ≠ "") ["a@x"]).
Proof.
  apply (run_fail_fast asciiTrimSpace abc_job fresh
           (mkWorld 1%nat [EvSendMail ["a@x"] "subject" "body"; EvSleep 5])
           ["a@x"] ["c@x"] "b@x" 2%nat (ExtError "boom")).
  - unfold slice_wf. vm_compute. lia.
  - vm_compute. reflexivity.
  - left. reflexivity.
  - vm_compute. reflexivity.
  - vm_compute. reflexivity.
  - vm_compute. discriminate.
  - vm_compute. reflexivity.
Defined.

Lemma run_returns_cause_unchanged_witness :
  (run asciiTrimSpace a_job fresh).1.2 = Returned (Some (ExtError "boom")).
Proof.
  apply (run_returns_cause_unchanged asciiTrimSpace a_job fresh fresh
           [] [] "a@x" 1%nat (ExtError "boom")).
  - unfold slice_wf. vm_compute. lia.
  - vm_compute. reflexivity.
  - left. reflexivity.
  - vm_compute. reflexivity.
  - reflexivity.
  - vm_compute. discriminate.
  - vm_compute. reflexivity.
Defined.

(** C2 as stated fails. The job that fails on ["a@x"], at index 0, and the
    job that fails on ["b@x"], at index 1, return the same error: nothing
    read off the returned value can tell the address or the index. *)
Lemma run_error_omits_address :
  sent_to (trace (run asciiTrimSpace a_job fresh).2) = ["a@x"]
  ∧ sent_to (trace (run asciiTrimSpace abc_job fresh).2) = ["a@x"; "b@x"]
  ∧ (run asciiTrimSpace a_job fresh).1.2 = Returned (Some (ExtError "boom"))
  ∧ (run asciiTrimSpace abc_job fresh).1.2 = Returned (Some (ExtError "boom"))
  ∧ ¬ ∃ identify : outcome (option (error string)) → string * nat,
        identify (run asciiTrimSpace a_job fresh).1.2 = ("a@x", 0%nat)
        ∧ identify (run asciiTrimSpace abc_job fresh).1.2 = ("b@x", 1%nat).
Proof.
  repeat split; try (vm_compute; reflexivity).
  intros (identify & Ha & Hb).
  assert ((run asciiTrimSpace a_job fresh).1.2 = (run asciiTrimSpace abc_job fresh).1.2)
    as Heq by (vm_compute; reflexivity).
  rewrite Heq, Hb in Ha. discriminate.
Qed.

Lemma run_end_past_capacity_witness :
  mailer_ok tight_job = None
  ∧ end_ (checkpoint tight_job) > Z.of_nat (len (destinations tight_job))
  ∧ run asciiTrimSpace tight_job fresh
    = (tight_job, Panicked "slice bounds out of range", fresh).
Proof.
  apply (run_end_past_capacity asciiTrimSpace tight_job fresh).
  - unfold slice_wf. vm_compute. lia.
  - vm_compute. discriminate.
  - vm_compute. reflexivity.
  - vm_compute. discriminate.
  - vm_compute. discriminate.
  - vm_compute. discriminate.
  - vm_compute. discriminate.
Defined.

(** C3 as stated fails. Three destinations in a backing array of four and
    [end = 4]: [end <> 0], [end > len(destinations)], [start <= len],
    [start <= end], the pacing is not negative and validation succeeds; the
    slice expression is in range, the fourth element is visited (and skipped,
    being blank), and [run] returns nil. *)
Lemma run_end_past_length_returns :
  slice_wf (destinations spare_job)
  ∧ end_ (checkpoint spare_job) ≠ 0
  ∧ end_ (checkpoint spare_job) > Z.of_nat (len (destinations spare_job))
  ∧ start (checkpoint spare_job) ≤ Z.of_nat (len (destinations spare_job))
  ∧ start (checkpoint spare_job) ≤ end_ (checkpoint spare_job)
  ∧ 0 ≤ sleepInterval spare_job
  ∧ mailer_ok spare_job = None
  ∧ run asciiTrimSpace spare_job fresh
    = (spare_job, Returned None,
       mkWorld 3%nat (flat_map (delivery spare_job) ["a@x"; "b@x"; "c@x"]))
  ∧ ¬ ∃ m1 msg w1, run asciiTrimSpace spare_job fresh = (m1, Panicked msg, w1).
Proof.
  split; [unfold slice_wf; vm_compute; lia |].
  split; [vm_compute; discriminate |].
  split; [vm_compute; reflexivity |].
  split; [vm_compute; discriminate |].
  split; [vm_compute; discriminate |].
  split; [vm_compute; discriminate |].
  split; [vm_compute; reflexivity |].
  split; [vm_compute; reflexivity |].
  intros (m1 & msg & w1 & Hrun). vm_compute in Hrun. discriminate.
Qed.

(** ** Contact resolution *)

Lemma sort_Strings_sorted (l : list string) : StronglySorted String.le (sort_Strings l).
Proof. apply (StronglySorted_merge_sort String.le). Qed.

Lemma sort_Strings_perm (l : list string) : sort_Strings l ≡ₚ l.
Proof. apply (merge_sort_Permutation String.le). Qed.

(** Two sorted lists without repeats and with the same members are equal. *)
Lemma sorted_members_unique (l1 l2 : list string) :
  StronglySorted String.le l1 → StronglySorted String.le l2 →
  NoDup l1 → NoDup l2 → (∀ e, e ∈ l1 ↔ e ∈ l2) → l1 = l2.
Proof.
  intros Hs1 Hs2 Hn1 Hn2 Hmem.
  apply (StronglySorted_unique String.le); [assumption | assumption |].
  apply NoDup_Permutation; assumption.
Qed.

Section ResolverFacts.
Context {DB E : Type}.
Variable TrimSpace : string → string.
Variable UnmarshalEmail : MailerDestination → MailerDestination * option (error E).

Lemma updateEmail_lookup_error (dbMap : dbSelector DB E) (c c1 : MailerDestination)
    (w : World DB) (db : DB) (err : error E) :
  SelectOne dbMap (ext w) c registrationQuery (ID c) = (db, (c1, Some err)) →
  updateEmail UnmarshalEmail dbMap c w
  = ((c1, Some err), emit db (EvSelectOne registrationQuery (ID c)) w).
Proof. intros Hsel. unfold updateEmail. rewrite Hsel. reflexivity. Qed.

Lemma resolve_loop_app (dbMap : dbSelector DB E) (l1 l2 : list MailerDestination)
    (cm : gset string) (w : World DB) :
  resolve_loop TrimSpace UnmarshalEmail dbMap (l1 ++ l2) cm w
  = match resolve_loop TrimSpace UnmarshalEmail dbMap l1 cm w with
    | (inl err, w1) => (inl err, w1)
    | (inr cm1, w1) => resolve_loop TrimSpace UnmarshalEmail dbMap l2 cm1 w1
    end.
Proof.
  revert cm w. induction l1 as [| c l1 IH]; intros cm w; simpl.
  - reflexivity.
  - destruct (updateEmail UnmarshalEmail dbMap c w) as [[c1 [e |]] w1].
    + reflexivity.
    + case_bool_decide; apply IH.
Qed.

(** The map the loop ends with: what it started with, and the non-blank
    resolved emails. *)
Lemma resolve_loop_map (dbMap : dbSelector DB E) (contacts : list MailerDestination)
    (cm cm1 : gset string) (w w1 : World DB) :
  resolve_loop TrimSpace UnmarshalEmail dbMap contacts cm w = (inr cm1, w1) →
  ∀ e, e ∈ cm1
       ↔ e ∈ cm ∨ (e ∈ resolved_emails UnmarshalEmail dbMap contacts w
                   ∧ TrimSpace e ≠ "").
Proof.
  revert cm w. induction contacts as [| c l IH]; intros cm w Hloop e;
    simpl in Hloop |- *.
  - injection Hloop as <- <-. rewrite elem_of_nil. tauto.
  - destruct (updateEmail UnmarshalEmail dbMap c w) as [[c1 [err |]] w2];
      [discriminate |].
    rewrite elem_of_cons.
    case_bool_decide as Hblank; rewrite (IH _ _ Hloop e).
    + split; [tauto |]. intros [? | [[-> | ?] ?]]; tauto.
    + rewrite elem_of_union, elem_of_singleton.
      split; [| tauto]. intros [[-> | ?] | [? ?]]; tauto.
Qed.

(** What a successful resolution returns, whatever order the map was
    walked in. *)
Lemma resolveDestinations_ok (range_order : gset string → list string)
    (dbMap : dbSelector DB E) (contacts : list MailerDestination)
    (w w1 : World DB) (l : list string) :
  (∀ s, range_order s ≡ₚ elements s) →
  resolveDestinations TrimSpace UnmarshalEmail range_order contacts dbMap w
  = ((l, None), w1) →
  StronglySorted String.le l ∧ NoDup l
  ∧ ∀ e, e ∈ l ↔ e ∈ resolved_emails UnmarshalEmail dbMap contacts w
                 ∧ TrimSpace e ≠ "".
Proof.
  intros Hperm Hres. unfold resolveDestinations in Hres.
  destruct (resolve_loop _ _ _ _ _ _) as [[err | cm] w2] eqn:Hloop;
    [discriminate |].
  injection Hres as <- <-.
  split; [apply sort_Strings_sorted |].
  split.
  - rewrite sort_Strings_perm, Hperm. apply NoDup_elements.
  - intros e. rewrite sort_Strings_perm, Hperm, elem_of_elements.
    rewrite (resolve_loop_map _ _ _ _ _ _ Hloop e).
    rewrite elem_of_empty. tauto.
Qed.
End ResolverFacts.

Section ResolverClaims.
Context {DB E : Type}.
Variable TrimSpace : string → string.
Variable UnmarshalEmail : MailerDestination → MailerDestination * option (error E).

(** C6, amended. A descriptor on which [updateEmail] succeeds and whose
    email is then blank after trimming (its contact empty, or parsed to a
    blank address) is skipped: the map of
    addresses is left as it was and the loop goes on with the next
    descriptor; resolving up to and including it returns, without error,
    the list that resolving up to it returns. *)
Theorem resolve_skips_blank_email (range_order : gset string → list string)
    (dbMap : dbSelector DB E) (pre post : list MailerDestination)
    (c c1 : MailerDestination) (cm : gset string) (w w1 w2 : World DB) :
  resolve_loop TrimSpace UnmarshalEmail dbMap pre ∅ w = (inr cm, w1) →
  updateEmail UnmarshalEmail dbMap c w1 = ((c1, None), w2) →
  TrimSpace (Email c1) = "" →
  resolve_loop TrimSpace UnmarshalEmail dbMap (pre ++ c :: post) ∅ w
  = resolve_loop TrimSpace UnmarshalEmail dbMap post cm w2
  ∧ resolveDestinations TrimSpace UnmarshalEmail range_order (pre ++ [c]) dbMap w
    = ((sort_Strings (range_order cm), None), w2)
  ∧ resolveDestinations TrimSpace UnmarshalEmail range_order pre dbMap w
    = ((sort_Strings (range_order cm), None), w1).
Proof.
  intros Hpre Hc Hblank.
  assert (∀ post, resolve_loop TrimSpace UnmarshalEmail dbMap (pre ++ c :: post) ∅ w
                  = resolve_loop TrimSpace UnmarshalEmail dbMap post cm w2) as Hstep.
  { intros l. rewrite resolve_loop_app, Hpre. simpl. rewrite Hc.
    rewrite bool_decide_eq_true_2 by exact Hblank. reflexivity. }
  split; [apply Hstep |]. split.
  - unfold resolveDestinations. rewrite Hstep. reflexivity.
  - unfold resolveDestinations. rewrite Hpre. reflexivity.
Qed.

(** C7. When the lookup fails on a descriptor, resolution returns that
    error and no list; the last thing it did is that lookup: the
    descriptors after the failing one are not looked up. *)
Theorem resolve_aborts_on_lookup_failure (range_order : gset string → list string)
    (dbMap : dbSelector DB E) (pre post : list MailerDestination)
    (c c1 : MailerDestination) (cm : gset string) (w w1 : World DB)
    (db : DB) (err : error E) :
  resolve_loop TrimSpace UnmarshalEmail dbMap pre ∅ w = (inr cm, w1) →
  SelectOne dbMap (ext w1) c registrationQuery (ID c) = (db, (c1, Some err)) →
  resolveDestinations TrimSpace UnmarshalEmail range_order (pre ++ c :: post) dbMap w
  = (([], Some err),
     mkWorld db (trace w1 ++ [EvSelectOne registrationQuery (ID c)])).
Proof.
  intros Hpre Hsel. unfold resolveDestinations.
  rewrite resolve_loop_app, Hpre. simpl.
  rewrite (updateEmail_lookup_error UnmarshalEmail dbMap c c1 w1 db err Hsel).
  reflexivity.
Qed.

(** C8. The list a successful resolution returns is in ascending byte-wise
    order, has no repeats and no blank entry, and its members are the
    non-blank resolved emails; so two successful resolutions with the same
    non-blank resolved emails return the same list, in whatever order and
    number the descriptors came and the map was walked. *)
Theorem resolve_sorted_deduplicated (range_order : gset string → list string)
    (dbMap : dbSelector DB E) (contacts : list MailerDestination)
    (w w1 : World DB) (l : list string) :
  (∀ s, range_order s ≡ₚ elements s) →
  resolveDestinations TrimSpace UnmarshalEmail range_order contacts dbMap w
  = ((l, None), w1) →
  StronglySorted String.le l ∧ NoDup l
  ∧ Forall (λ e, TrimSpace e ≠ "") l
  ∧ (∀ e, e ∈ l ↔ e ∈ resolved_emails UnmarshalEmail dbMap contacts w
                  ∧ TrimSpace e ≠ "")
  ∧ ∀ (range_order' : gset string → list string) (dbMap' : dbSelector DB E)
      (contacts' : list MailerDestination) (w' w1' : World DB) (l' : list string),
      (∀ s, range_order' s ≡ₚ elements s) →
      resolveDestinations TrimSpace UnmarshalEmail range_order' contacts' dbMap' w'
      = ((l', None), w1') →
      (∀ e, TrimSpace e ≠ "" →
            e ∈ resolved_emails UnmarshalEmail dbMap' contacts' w'
            ↔ e ∈ resolved_emails UnmarshalEmail dbMap contacts w) →
      l' = l.
Proof.
  intros Hperm Hres.
  destruct (resolveDestinations_ok TrimSpace UnmarshalEmail range_order dbMap
              contacts w w1 l Hperm Hres) as (Hsorted & Hnodup & Hmem).
  split; [exact Hsorted |]. split; [exact Hnodup |].
  split; [apply Forall_forall; intros e He; apply Hmem, He |].
  split; [exact Hmem |].
  intros ro' dbMap' contacts' w' w1' l' Hperm' Hres' Hsame.
  destruct (resolveDestinations_ok TrimSpace UnmarshalEmail ro' dbMap'
              contacts' w' w1' l' Hperm' Hres') as (Hsorted' & Hnodup' & Hmem').
  apply sorted_members_unique; try assumption.
  intros e. rewrite Hmem, Hmem'. specialize (Hsame e). tauto.
Qed.
End ResolverClaims.

(** *** The resolution claims on the example store *)

Lemma resolve_skips_blank_email_witness :
  resolve_loop asciiTrimSpace plain_UnmarshalEmail accounts
    ([account 1] ++ account 3 :: [account 2]) ∅ unseen
  = resolve_loop asciiTrimSpace plain_UnmarshalEmail accounts [account 2] {[ "b@x" ]}
      (mkWorld tt [EvSelectOne registrationQuery 1; EvSelectOne registrationQuery 3])
  ∧ resolveDestinations asciiTrimSpace plain_UnmarshalEmail elements
      ([account 1] ++ [account 3]) accounts unseen
    = ((sort_Strings (elements ({[ "b@x" ]} : gset string)), None),
       mkWorld tt [EvSelectOne registrationQuery 1; EvSelectOne registrationQuery 3])
  ∧ resolveDestinations asciiTrimSpace plain_UnmarshalEmail elements
      [account 1] accounts unseen
    = ((sort_Strings (elements ({[ "b@x" ]} : gset string)), None),
       mkWorld tt [EvSelectOne registrationQuery 1]).
Proof.
  apply (resolve_skips_blank_email asciiTrimSpace plain_UnmarshalEmail elements
           accounts [account 1] [account 2] (account 3) (mkDest 3 (Some "  ") "  ")).
  - vm_compute. reflexivity.
  - vm_compute. reflexivity.
  - vm_compute. reflexivity.
Defined.

(** C6 as stated fails. Account 7 has a null contact in the store: the
    query of [updateEmail] selects no row for it, the lookup returns an
    error, and resolution fails with that error and no list instead of
    skipping the descriptor; account 2, after it, is not looked up. *)
Lemma resolve_fails_on_null_contact :
  resolveDestinations asciiTrimSpace plain_UnmarshalEmail elements
    [account 1; account 7; account 2] null_contact_rows unseen
  = (([], Some (ExtError "sql: no rows in result set")),
     mkWorld tt [EvSelectOne registrationQuery 1; EvSelectOne registrationQuery 7])
  ∧ (resolveDestinations asciiTrimSpace plain_UnmarshalEmail elements
       [account 1; account 7; account 2] null_contact_rows unseen).1.2 ≠ None
  ∧ resolveDestinations asciiTrimSpace plain_UnmarshalEmail elements
      [account 1; account 2] null_contact_rows unseen
    = ((["a@x"; "b@x"], None),
       mkWorld tt [EvSelectOne registrationQuery 1; EvSelectOne registrationQuery 2]).
Proof.
  split; [vm_compute; reflexivity |].
  split; [vm_compute; discriminate | vm_compute; reflexivity].
Qed.

Lemma resolve_aborts_on_lookup_failure_witness :
  resolveDestinations asciiTrimSpace plain_UnmarshalEmail elements
    ([account 1] ++ account 9 :: [account 2]) accounts unseen
  = (([], Some (ExtError "sql: no rows in result set")),
     mkWorld tt ([EvSelectOne registrationQuery 1] ++ [EvSelectOne registrationQuery 9])).
Proof.
  apply (resolve_aborts_on_lookup_failure asciiTrimSpace plain_UnmarshalEmail elements
           accounts [account 1] [account 2] (account 9) (account 9) {[ "b@x" ]}
           unseen (mkWorld tt [EvSelectOne registrationQuery 1]) tt
           (ExtError "sql: no rows in result set")).
  - vm_compute. reflexivity.
  - vm_compute. reflexivity.
Defined.

Lemma resolve_sorted_deduplicated_witness :
  resolveDestinations asciiTrimSpace plain_UnmarshalEmail elements
    [account 1; account 2; account 4; account 3; account 2] accounts unseen
  = ((["a@x"; "b@x"], None),
     mkWorld tt (EvSelectOne registrationQuery <$> [1; 2; 4; 3; 2]))
  ∧ StronglySorted String.le ["a@x"; "b@x"] ∧ NoDup ["a@x"; "b@x"]
  ∧ Forall (λ e, asciiTrimSpace e ≠ "") ["a@x"; "b@x"].
Proof.
  assert (resolveDestinations asciiTrimSpace plain_UnmarshalEmail elements
            [account 1; account 2; account 4; account 3; account 2] accounts unseen
          = ((["a@x"; "b@x"], None),
             mkWorld tt (EvSelectOne registrationQuery <$> [1; 2; 4; 3; 2]))) as Hres
    by (vm_compute; reflexivity).
  split; [exact Hres |].
  destruct (resolve_sorted_deduplicated asciiTrimSpace plain_UnmarshalEmail elements
              accounts _ unseen _ _ (λ s, reflexivity (elements s)) Hres)
    as (Hsorted & Hnodup & Hnonblank & _).
  repeat split; assumption.
Defined.

(** ** Further properties of [run] *)

Section EngineMore.
Context {TS E : Type}.
Variable TrimSpace : string → string.

(** The three ways through [run]: a validation error, a panic on the slice
    expression, or the loop over the selection. *)
Lemma run_cases (m : mailer TS E) (w : World TS) :
  (∃ err, mailer_ok m = Some err ∧ run TrimSpace m w = (m, Returned (Some err), w))
  ∨ (mailer_ok m = None
     ∧ Z.of_nat (cap (destinations m)) < end_ (checkpoint (normalize m))
     ∧ run TrimSpace m w = (normalize m, Panicked "slice bounds out of range", w))
  ∨ (mailer_ok m = None
     ∧ end_ (checkpoint (normalize m)) ≤ Z.of_nat (cap (destinations m))
     ∧ run TrimSpace m w
       = (normalize m, Returned (send_loop TrimSpace m (selection m) w).1,
          (send_loop TrimSpace m (selection m) w).2)).
Proof.
  unfold run. destruct (mailer_ok m) as [err |] eqn:Hok.
  - left. exists err. split; reflexivity.
  - right.
    pose proof Hok as Hok'.
    apply mailer_ok_None_iff in Hok' as (Hi & Hstart & _).
    apply interval_ok_None_iff in Hi as (H0 & H1 & H2).
    destruct (normalize_fields m) as (_ & _ & _ & Hd & Hs & _).
    rewrite Hd, Hs.
    assert (start (checkpoint m) ≤ end_ (checkpoint (normalize m))) as Hlo.
    { unfold normalize. case_bool_decide; simpl; lia. }
    destruct (decide (end_ (checkpoint (normalize m))
                      ≤ Z.of_nat (cap (destinations m)))) as [Hhi | Hhi].
    + right. split; [reflexivity |]. split; [exact Hhi |].
      rewrite reslice_Some by assumption.
      rewrite elems_reslice by assumption.
      rewrite send_loop_normalize. fold (selection m).
      destruct (send_loop TrimSpace m (selection m) w); reflexivity.
    + left. split; [reflexivity |]. split; [lia |].
      rewrite reslice_None by lia. reflexivity.
Qed.

Lemma sent_to_app (tr1 tr2 : list event) : sent_to (tr1 ++ tr2) = sent_to tr1 ++ sent_to tr2.
Proof. unfold sent_to. apply flat_map_app. Qed.

Lemma slept_app (tr1 tr2 : list event) : slept (tr1 ++ tr2) = slept tr1 ++ slept tr2.
Proof. unfold slept. apply flat_map_app. Qed.

Lemma sent_to_deliveries (m : mailer TS E) (l : list string) :
  sent_to (flat_map (delivery m) l) = l.
Proof. induction l as [| d l IH]; simpl; [reflexivity | f_equal; exact IH]. Qed.

Lemma slept_deliveries (m : mailer TS E) (l : list string) :
  slept (flat_map (delivery m) l) = replicate (length l) (sleepInterval m).
Proof. induction l as [| d l IH]; simpl; [reflexivity | f_equal; exact IH]. Qed.

(** X1. Whatever the job, [run] only appends to the trace, and each event it
    appends is a pause of [sleepInterval] or a send, with the job's subject
    and body, to a single address that is a non-blank element of the
    selection: no send to a blank address, to several addresses at once, or
    to an address outside the checkpoint range. *)
Theorem run_events_shape (m : mailer TS E) (w : World TS) :
  ∃ tr,
    trace (run TrimSpace m w).2 = trace w ++ tr
    ∧ Forall (λ ev, ev = EvSleep (sleepInterval m)
                    ∨ ∃ d, d ∈ selection m ∧ TrimSpace d ≠ ""
                           ∧ ev = EvSendMail [d] (subject m) (emailTemplate m)) tr.
Proof.
  destruct (run_cases m w) as [(err & _ & ->) | [(_ & _ & ->) | (_ & _ & ->)]].
  - exists []. rewrite app_nil_r. split; [reflexivity | constructor].
  - exists []. rewrite app_nil_r. split; [reflexivity | constructor].
  - simpl.
    destruct (send_loop TrimSpace m (selection m) w) as [err w1] eqn:Hloop.
    pose proof (send_loop_trace TrimSpace m _ w w1 err Hloop) as Htr. simpl.
    assert (∀ l, (∀ d, d ∈ l → d ∈ selection m) →
              Forall (λ ev, ev = EvSleep (sleepInterval m)
                            ∨ ∃ d, d ∈ selection m ∧ TrimSpace d ≠ ""
                                   ∧ ev = EvSendMail [d] (subject m) (emailTemplate m))
                     (flat_map (delivery m) (filter (λ d, TrimSpace d ≠ "") l)))
      as Hshape.
    { intros l Hl. apply Forall_forall. intros ev Hev.
      apply list_elem_of_In, in_flat_map in Hev as (d & Hd & Hev).
      apply list_elem_of_In, list_elem_of_filter in Hd as [Hnb Hd].
      simpl in Hev. destruct Hev as [<- | [<- | []]].
      - right. exists d. split; [apply Hl, Hd |]. split; [exact Hnb | reflexivity].
      - left. reflexivity. }
    destruct err as [e |].
    + destruct Htr as (pre & d & post & Hsel & Hd & ->).
      eexists. split; [reflexivity |].
      apply Forall_app. split.
      * apply Hshape. intros x Hx. rewrite Hsel. apply elem_of_app. left. exact Hx.
      * apply Forall_singleton. right. exists d.
        split; [rewrite Hsel; apply elem_of_app; right; left |].
        split; [exact Hd | reflexivity].
    + rewrite Htr. eexists. split; [reflexivity |].
      apply Hshape. intros x Hx. exact Hx.
Qed.

(** X2. Past validation and with the slice in range: when [run] returns
    nil, it has sent to every non-blank element of the selection, in order,
    and paused [sleepInterval] after each of these sends, the last one
    included; when it returns an error, it has paused after each send but
    the failing one. *)
Theorem run_pacing (m : mailer TS E) (w : World TS) :
  slice_wf (destinations m) → mailer_ok m = None →
  end_ (checkpoint m) = 0 ∨ end_ (checkpoint m) ≤ Z.of_nat (cap (destinations m)) →
  ∃ err w1 tr,
    run TrimSpace m w = (normalize m, Returned err, w1)
    ∧ trace w1 = trace w ++ tr
    ∧ match err with
      | None =>
        sent_to tr = filter (λ d, TrimSpace d ≠ "") (selection m)
        ∧ slept tr = replicate (length (sent_to tr)) (sleepInterval m)
        ∧ (sent_to tr ≠ [] → last tr = Some (EvSleep (sleepInterval m)))
      | Some _ =>
        slept tr = replicate (length (sent_to tr) - 1) (sleepInterval m)
        ∧ ∃ d, last tr = Some (EvSendMail [d] (subject m) (emailTemplate m))
      end.
Proof.
  intros Hwf Hok Hend.
  destruct (send_loop TrimSpace m (selection m) w) as [err w1] eqn:Hloop.
  pose proof (send_loop_trace TrimSpace m _ w w1 err Hloop) as Htr.
  exists err, w1.
  destruct err as [e |].
  - destruct Htr as (pre & d & post & Hsel & Hd & Htr).
    eexists. split; [rewrite run_in_range by assumption; rewrite Hloop; reflexivity |].
    split; [exact Htr |]. split.
    + rewrite sent_to_app, slept_app, sent_to_deliveries, slept_deliveries.
      change (slept [EvSendMail [d] (subject m) (emailTemplate m)]) with (@nil Z).
      change (sent_to [EvSendMail [d] (subject m) (emailTemplate m)]) with [d].
      rewrite app_nil_r, List.length_app. simpl. f_equal. lia.
    + exists d. apply last_snoc.
  - eexists. split; [rewrite run_in_range by assumption; rewrite Hloop; reflexivity |].
    split; [exact Htr |].
    rewrite sent_to_deliveries, slept_deliveries.
    split; [reflexivity |]. split; [reflexivity |].
    intros Hne.
    destruct (filter (λ d, TrimSpace d ≠ "") (selection m)) as [| d l] using rev_ind;
      [congruence |].
    rewrite flat_map_app.
    change (flat_map (delivery m) [d])
      with ([EvSendMail [d] (subject m) (emailTemplate m)] ++ [EvSleep (sleepInterval m)]).
    rewrite app_assoc. apply last_snoc.
Qed.
End EngineMore.

Section Checkpoints.
Context {TS E : Type}.
Variable TrimSpace : string → string.

Lemma send_loop_with_checkpoint (m : mailer TS E) (i : interval) (l : list string)
    (w : World TS) :
  send_loop TrimSpace (with_checkpoint m i) l w = send_loop TrimSpace m l w.
Proof.
  revert w. induction l as [| d l IH]; intros w; simpl; [reflexivity |].
  case_bool_decide; [apply IH |].
  unfold send_one; simpl.
  destruct (SendMail _ _ _ _ _) as [ts [e |]]; [reflexivity | apply IH].
Qed.

(** The upper bound of the range after [normalize]. *)
Lemma normalize_end (m : mailer TS E) :
  end_ (checkpoint (normalize m))
  = if bool_decide (end_ (checkpoint m) = 0) then Z.of_nat (len (destinations m))
    else end_ (checkpoint m).
Proof. unfold normalize. case_bool_decide; reflexivity. Qed.

Lemma drop_take_split (l : list string) (a k b : nat) :
  (a ≤ k)%nat → (k ≤ b)%nat →
  drop a (take b l) = drop a (take k l) ++ drop k (take b l).
Proof.
  intros Hak Hkb.
  rewrite <- (take_drop k (take b l)) at 1.
  rewrite take_take, Nat.min_l by lia.
  rewrite drop_app. f_equal.
  destruct (decide (k ≤ length l)%nat) as [Hk | Hk].
  - rewrite length_take, Nat.min_l by lia.
    replace (a - k)%nat with 0%nat by lia. reflexivity.
  - rewrite (drop_ge (take b l) k) by (rewrite length_take; lia).
    apply drop_nil.
Qed.

(** X3. Running a range in two batches is running it at once: for [k]
    between [start] and the end of the range, not 0 and at most
    [len(destinations)], when the run over [start, k) returns nil, the run
    over [k, end) from the world it left returns what the run over
    [start, end) returns and leaves the same world; when the first batch
    fails, the whole run fails with the same error in the same world. *)
Theorem run_in_two_batches (m : mailer TS E) (k : Z) (w : World TS) :
  slice_wf (destinations m) → mailer_ok m = None →
  end_ (checkpoint m) = 0 ∨ end_ (checkpoint m) ≤ Z.of_nat (cap (destinations m)) →
  start (checkpoint m) ≤ k → k ≤ end_ (checkpoint (normalize m)) →
  k ≠ 0 → k ≤ Z.of_nat (len (destinations m)) →
  ∃ m1 err w1,
    run TrimSpace (with_checkpoint m (mkInterval (start (checkpoint m)) k)) w
    = (m1, Returned err, w1)
    ∧ match err with
      | None =>
        ∃ m2, run TrimSpace (with_checkpoint m (mkInterval k (end_ (checkpoint m)))) w1
              = (m2, (run TrimSpace m w).1.2, (run TrimSpace m w).2)
      | Some e => (run TrimSpace m w).1.2 = Returned (Some e) ∧ (run TrimSpace m w).2 = w1
      end.
Proof.
  intros Hwf Hok Hend Hsk Hke Hk0 Hklen.
  pose proof Hok as Hok'.
  apply mailer_ok_None_iff in Hok' as (Hi & Hstart & Hsleep).
  apply interval_ok_None_iff in Hi as (H0 & H1 & H2).
  unfold slice_wf in Hwf. rewrite normalize_end in Hke.
  set (first := with_checkpoint m (mkInterval (start (checkpoint m)) k)).
  set (second := with_checkpoint m (mkInterval k (end_ (checkpoint m)))).
  assert (mailer_ok first = None) as Hok1.
  { apply mailer_ok_None_iff. split; [| simpl; lia].
    apply interval_ok_None_iff. simpl. lia. }
  assert (mailer_ok second = None) as Hok2.
  { apply mailer_ok_None_iff. split; [| simpl; lia].
    apply interval_ok_None_iff. simpl. case_bool_decide; lia. }
  assert (selection m = selection first ++ selection second) as Hsel.
  { unfold selection. rewrite !normalize_end. simpl.
    rewrite (bool_decide_eq_false_2 (k = 0)) by exact Hk0.
    apply drop_take_split; case_bool_decide; lia. }
  assert (∀ i l w0, send_loop TrimSpace (with_checkpoint m i) l w0
                    = send_loop TrimSpace m l w0) as Hloop
    by (intros; apply send_loop_with_checkpoint).
  rewrite (run_in_range TrimSpace m w Hwf Hok Hend).
  rewrite (run_in_range TrimSpace first w); [| exact Hwf | exact Hok1 | right; simpl; lia].
  unfold first at 2 4. rewrite !Hloop.
  rewrite Hsel, send_loop_app.
  destruct (send_loop TrimSpace m (selection first) w) as [[e |] w1] eqn:Hfirst.
  - eexists _, _, _. split; [reflexivity |]. simpl. split; reflexivity.
  - eexists _, _, _. split; [reflexivity |]. simpl.
    exists (normalize second).
    rewrite (run_in_range TrimSpace second w1);
      [| exact Hwf | exact Hok2 | simpl; destruct Hend; [left | right]; assumption].
    unfold second at 2 4. rewrite !Hloop.
    destruct (send_loop TrimSpace m (selection second) w1); reflexivity.
Qed.

(** X4. Resuming after a failure: when the selection is [pre ++ d :: post]
    ([d] being the address whose send failed) and the range ends within
    [len(destinations)], the same job with [start] moved forward by the
    length of [pre] passes validation, and its run is the loop over
    [d :: post]: it starts with [d] and visits no element of [pre]. *)
Theorem run_resumes_at_failed_index (m : mailer TS E) (pre post : list string)
    (d : string) (w : World TS) :
  slice_wf (destinations m) → mailer_ok m = None →
  end_ (checkpoint m) = 0 ∨ end_ (checkpoint m) ≤ Z.of_nat (len (destinations m)) →
  selection m = pre ++ d :: post →
  let resumed :=
    with_checkpoint m (mkInterval (start (checkpoint m) + Z.of_nat (length pre))
                                  (end_ (checkpoint m))) in
  mailer_ok resumed = None
  ∧ selection resumed = d :: post
  ∧ run TrimSpace resumed w
    = (normalize resumed, Returned (send_loop TrimSpace m (d :: post) w).1,
       (send_loop TrimSpace m (d :: post) w).2).
Proof.
  intros Hwf Hok Hend Hsel resumed.
  pose proof Hok as Hok'.
  apply mailer_ok_None_iff in Hok' as (Hi & Hstart & Hsleep).
  apply interval_ok_None_iff in Hi as (H0 & H1 & H2).
  unfold slice_wf in Hwf.
  assert (length (selection m) = length pre + S (length post))%nat as Hlen.
  { rewrite Hsel, List.length_app. reflexivity. }
  unfold selection in Hlen. rewrite normalize_end in Hlen.
  rewrite length_drop, length_take in Hlen.
  assert (mailer_ok resumed = None) as Hok1.
  { apply mailer_ok_None_iff. split.
    - apply interval_ok_None_iff. simpl. case_bool_decide; lia.
    - simpl. case_bool_decide; lia. }
  assert (selection resumed = d :: post) as Hsel1.
  { unfold selection. rewrite normalize_end. simpl.
    rewrite Z2Nat.inj_add, Nat2Z.id by lia.
    rewrite <- drop_drop.
    unfold selection in Hsel. rewrite normalize_end in Hsel. rewrite Hsel.
    rewrite drop_app_length. reflexivity. }
  split; [exact Hok1 |]. split; [exact Hsel1 |].
  rewrite (run_in_range TrimSpace resumed w);
    [| exact Hwf | exact Hok1 | simpl; destruct Hend; [left; assumption | right; lia]].
  rewrite Hsel1.
  assert (∀ l w0, send_loop TrimSpace resumed l w0 = send_loop TrimSpace m l w0)
    as Hloop by (intros; apply send_loop_with_checkpoint).
  rewrite !Hloop. reflexivity.
Qed.

(** X5. An empty range: when [start] is within [0, len(destinations)], the
    pacing is not negative and [start] is the end of the range (after
    [normalize]: [start = end <> 0], or [end = 0] and
    [start = len(destinations)]), validation passes, [run] returns nil and
    the world is as it was. *)
Theorem run_empty_range (m : mailer TS E) (w : World TS) :
  slice_wf (destinations m) →
  0 ≤ start (checkpoint m) →
  start (checkpoint m) ≤ Z.of_nat (len (destinations m)) →
  0 ≤ sleepInterval m →
  start (checkpoint m) = end_ (checkpoint (normalize m)) →
  mailer_ok m = None
  ∧ run TrimSpace m w = (normalize m, Returned None, w).
Proof.
  intros Hwf H0 Hlen Hsleep Hempty.
  pose proof Hempty as Hend. rewrite normalize_end in Hend.
  unfold slice_wf in Hwf.
  assert (mailer_ok m = None) as Hok.
  { apply mailer_ok_None_iff. split; [| lia].
    apply interval_ok_None_iff. case_bool_decide; lia. }
  split; [exact Hok |].
  rewrite run_in_range; [| exact Hwf | exact Hok | case_bool_decide; [left; assumption | right; lia]].
  assert (selection m = []) as ->; [| reflexivity].
  unfold selection. rewrite <- Hempty. apply drop_ge.
  rewrite length_take. lia.
Qed.

(** X6. A mailer that passes validation passes it again after [run], and a
    later [run] of the receiver as [run] left it does what a [run] of the
    original does: rewriting [checkpoint.end] from 0 changes nothing to the
    range. *)
Theorem run_again (m : mailer TS E) (w w' : World TS) :
  mailer_ok (run TrimSpace m w).1.1 = mailer_ok m
  ∧ run TrimSpace (run TrimSpace m w).1.1 w' = run TrimSpace m w'.
Proof.
  assert (mailer_ok m = None → mailer_ok (normalize m) = None) as Hoknorm.
  { intros Hok. apply mailer_ok_None_iff in Hok as (Hi & Hstart & Hsleep).
    apply interval_ok_None_iff in Hi as (H0 & H1 & H2).
    apply mailer_ok_None_iff. unfold normalize. case_bool_decide; simpl.
    - split; [apply interval_ok_None_iff; simpl; lia | lia].
    - split; [apply interval_ok_None_iff; lia | lia]. }
  assert (normalize (normalize m) = normalize m) as Hidem.
  { unfold normalize at 2 3. case_bool_decide as Hz; [| unfold normalize;
      rewrite bool_decide_eq_false_2 by exact Hz; reflexivity].
    unfold normalize. simpl. case_bool_decide as Hl; [| reflexivity].
    unfold set_checkpoint_end. simpl. rewrite Hl. reflexivity. }
  assert (mailer_ok m = None → run TrimSpace (normalize m) w' = run TrimSpace m w')
    as Hrun.
  { intros Hok. unfold run. rewrite Hok, (Hoknorm Hok), Hidem.
    destruct (reslice _ _ _) as [s |]; [| reflexivity].
    rewrite !send_loop_normalize. reflexivity. }
  destruct (run_cases TrimSpace m w) as [(err & Hok & ->) | [(Hok & _ & ->) | (Hok & _ & ->)]];
    simpl.
  - split; reflexivity.
  - split; [rewrite Hok; apply Hoknorm, Hok | apply Hrun, Hok].
  - split; [rewrite Hok; apply Hoknorm, Hok | apply Hrun, Hok].
Qed.

(** X7. [main] under [-emails] with the default [-end]: when the file has
    fewer than 99999999 lines, [-start] is within them and [-sleep] is not
    negative, validation passes and [run] panics on the slice expression
    before any send. *)
Theorem run_default_end_panics (mailClient : Mailer TS E) (subjectFlag body toBody : string)
    (sleepFlag startFlag : Z) (w : World TS) :
  0 ≤ startFlag → startFlag ≤ Z.of_nat (length (Split_newline toBody)) →
  0 ≤ sleepFlag →
  Z.of_nat (length (Split_newline toBody)) < default_end →
  let m := emails_job mailClient subjectFlag body toBody sleepFlag startFlag default_end in
  mailer_ok m = None
  ∧ run TrimSpace m w = (m, Panicked "slice bounds out of range", w).
Proof.
  intros H0 Hstart Hsleep Hlines m.
  assert (mailer_ok m = None) as Hok.
  { apply mailer_ok_None_iff. split; [| simpl; lia].
    apply interval_ok_None_iff. simpl. unfold default_end in *. lia. }
  split; [exact Hok |].
  unfold run. rewrite Hok. unfold normalize.
  rewrite bool_decide_eq_false_2 by (simpl; unfold default_end; lia).
  rewrite reslice_None; [reflexivity |]. simpl. unfold cap. simpl. exact Hlines.
Qed.
End Checkpoints.

(** *** The further properties of [run] on the example jobs *)

Lemma run_pacing_witness :
  ∃ w1 tr,
    run asciiTrimSpace blank_job fresh = (normalize blank_job, Returned None, w1)
    ∧ trace w1 = trace fresh ++ tr
    ∧ sent_to tr = ["b@x"; "c@x"] ∧ slept tr = [5; 5]
    ∧ last tr = Some (EvSleep 5).
Proof.
  destruct (run_pacing asciiTrimSpace blank_job fresh) as (err & w1 & tr & Hrun & Htr & Hp).
  - unfold slice_wf. vm_compute. lia.
  - vm_compute. reflexivity.
  - left. reflexivity.
  - assert (err = None) as -> by (vm_compute in Hrun; congruence).
    destruct Hp as (Hsent & Hslept & Hlast).
    assert (sent_to tr = ["b@x"; "c@x"]) as Hsent'
      by (rewrite Hsent; vm_compute; reflexivity).
    exists w1, tr. split; [exact Hrun |]. split; [exact Htr |].
    split; [exact Hsent' |]. split; [rewrite Hslept, Hsent'; reflexivity |].
    apply Hlast. rewrite Hsent'. discriminate.
Defined.

Lemma run_in_two_batches_witness :
  ∃ m1 m2 w1,
    run asciiTrimSpace (with_checkpoint good_job (mkInterval 0 2)) fresh
    = (m1, Returned None, w1)
    ∧ sent_to (trace w1) = ["a@x"; "b@x"]
    ∧ run asciiTrimSpace (with_checkpoint good_job (mkInterval 2 0)) w1
      = (m2, (run asciiTrimSpace good_job fresh).1.2, (run asciiTrimSpace good_job fresh).2).
Proof.
  destruct (run_in_two_batches asciiTrimSpace good_job 2 fresh)
    as (m1 & err & w1 & Hrun & Hrest).
  - unfold slice_wf. vm_compute. lia.
  - vm_compute. reflexivity.
  - left. reflexivity.
  - vm_compute. discriminate.
  - vm_compute. discriminate.
  - discriminate.
  - vm_compute. discriminate.
  - assert (err = None ∧ sent_to (trace w1) = ["a@x"; "b@x"]) as [-> Hsent].
    { vm_compute in Hrun. injection Hrun as _ <- <-. split; reflexivity. }
    destruct Hrest as (m2 & Hrun2).
    exists m1, m2, w1. split; [exact Hrun |]. split; [exact Hsent | exact Hrun2].
Defined.

Lemma run_resumes_at_failed_index_witness :
  mailer_ok (with_checkpoint abc_job (mkInterval (0 + 1) 0)) = None
  ∧ selection (with_checkpoint abc_job (mkInterval (0 + 1) 0)) = ["b@x"; "c@x"]
  ∧ run asciiTrimSpace (with_checkpoint abc_job (mkInterval (0 + 1) 0)) fresh
    = (normalize (with_checkpoint abc_job (mkInterval (0 + 1) 0)),
       Returned (send_loop asciiTrimSpace abc_job ["b@x"; "c@x"] fresh).1,
       (send_loop asciiTrimSpace abc_job ["b@x"; "c@x"] fresh).2).
Proof.
  apply (run_resumes_at_failed_index asciiTrimSpace abc_job ["a@x"] ["c@x"] "b@x" fresh).
  - unfold slice_wf. vm_compute. lia.
  - vm_compute. reflexivity.
  - left. reflexivity.
  - vm_compute. reflexivity.
Defined.

Lemma run_empty_range_witness :
  mailer_ok done_job = None
  ∧ run asciiTrimSpace done_job fresh = (normalize done_job, Returned None, fresh).
Proof.
  apply (run_empty_range asciiTrimSpace done_job fresh).
  - unfold slice_wf. vm_compute. lia.
  - vm_compute. discriminate.
  - vm_compute. discriminate.
  - vm_compute. discriminate.
  - vm_compute. reflexivity.
Defined.

Lemma run_default_end_panics_witness :
  mailer_ok (emails_job (@good_transport string) "subject" "body" two_lines
               default_sleep default_start default_end) = None
  ∧ run asciiTrimSpace
      (emails_job (@good_transport string) "subject" "body" two_lines
         default_sleep default_start default_end) fresh
    = (emails_job good_transport "subject" "body" two_lines
         default_sleep default_start default_end,
       Panicked "slice bounds out of range", fresh).
Proof.
  apply (run_default_end_panics asciiTrimSpace (@good_transport string) "subject" "body"
           two_lines default_sleep default_start fresh).
  - vm_compute. discriminate.
  - vm_compute. discriminate.
  - vm_compute. discriminate.
  - vm_compute. reflexivity.
Defined.

(** ** Further properties of the resolution *)

Section ResolverMore.
Context {DB E : Type}.
Variable TrimSpace : string → string.
Variable UnmarshalEmail : MailerDestination → MailerDestination * option (error E).

(** [updateEmail] makes one lookup, by the id the descriptor came with. *)
Lemma updateEmail_trace (dbMap : dbSelector DB E) (c : MailerDestination) (w : World DB) :
  trace (updateEmail UnmarshalEmail dbMap c w).2
  = trace w ++ [EvSelectOne registrationQuery (ID c)].
Proof.
  unfold updateEmail.
  destruct (SelectOne dbMap (ext w) c registrationQuery (ID c)) as [db [c1 [e |]]];
    [reflexivity |].
  destruct (UnmarshalEmail c1); reflexivity.
Qed.

(** The lookups of the loop: one for each descriptor when it goes through;
    when it fails, one for each descriptor up to the first on which
    [updateEmail] fails, that one included. *)
Lemma resolve_loop_lookups (dbMap : dbSelector DB E) (contacts : list MailerDestination)
    (cm : gset string) (w : World DB) :
  match (resolve_loop TrimSpace UnmarshalEmail dbMap contacts cm w).1 with
  | inr _ =>
    trace (resolve_loop TrimSpace UnmarshalEmail dbMap contacts cm w).2
    = trace w ++ ((λ c, EvSelectOne registrationQuery (ID c)) <$> contacts)
  | inl err =>
    ∃ (pre post : list MailerDestination) (c : MailerDestination)
      (cm1 : gset string) (w1 : World DB),
      contacts = pre ++ c :: post
      ∧ resolve_loop TrimSpace UnmarshalEmail dbMap pre cm w = (inr cm1, w1)
      ∧ (updateEmail UnmarshalEmail dbMap c w1).1.2 = Some err
      ∧ trace (resolve_loop TrimSpace UnmarshalEmail dbMap contacts cm w).2
        = trace w ++ ((λ c, EvSelectOne registrationQuery (ID c)) <$> (pre ++ [c]))
  end.
Proof.
  revert cm w. induction contacts as [| c l IH]; intros cm w.
  - simpl. rewrite app_nil_r. reflexivity.
  - pose proof (updateEmail_trace dbMap c w) as Hup.
    assert (∀ cm' c1 w1,
              updateEmail UnmarshalEmail dbMap c w = ((c1, None), w1) →
              resolve_loop TrimSpace UnmarshalEmail dbMap (c :: l) cm w
              = resolve_loop TrimSpace UnmarshalEmail dbMap l cm' w1 →
              (∀ pre, resolve_loop TrimSpace UnmarshalEmail dbMap (c :: pre) cm w
                      = resolve_loop TrimSpace UnmarshalEmail dbMap pre cm' w1) →
              match (resolve_loop TrimSpace UnmarshalEmail dbMap (c :: l) cm w).1 with
              | inr _ =>
                trace (resolve_loop TrimSpace UnmarshalEmail dbMap (c :: l) cm w).2
                = trace w ++ ((λ c, EvSelectOne registrationQuery (ID c)) <$> c :: l)
              | inl err =>
                ∃ pre post c' cm1 w',
                  c :: l = pre ++ c' :: post
                  ∧ resolve_loop TrimSpace UnmarshalEmail dbMap pre cm w = (inr cm1, w')
                  ∧ (updateEmail UnmarshalEmail dbMap c' w').1.2 = Some err
                  ∧ trace (resolve_loop TrimSpace UnmarshalEmail dbMap (c :: l) cm w).2
                    = trace w ++ ((λ c, EvSelectOne registrationQuery (ID c))
                                    <$> (pre ++ [c']))
              end) as Hstep.
    { intros cm' c1 w1 Hc Hrest Hpre. rewrite Hc in Hup. simpl in Hup.
      rewrite Hrest. specialize (IH cm' w1).
      destruct (resolve_loop TrimSpace UnmarshalEmail dbMap l cm' w1) as [[err | cm2] w2]
        eqn:Hloop; simpl in IH |- *.
      - destruct IH as (pre & post & c' & cm1 & w' & -> & Hp & Hfail & Htr).
        exists (c :: pre), post, c', cm1, w'.
        split; [reflexivity |]. split; [rewrite Hpre; exact Hp |].
        split; [exact Hfail |].
        rewrite Htr, Hup. simpl. rewrite <- app_assoc. reflexivity.
      - rewrite IH, Hup. rewrite <- app_assoc. reflexivity. }
    destruct (updateEmail UnmarshalEmail dbMap c w) as [[c1 [err |]] w1] eqn:Hc.
    + simpl. rewrite Hc. simpl. exists [], l, c, cm, w.
      split; [reflexivity |]. split; [reflexivity |].
      split; [rewrite Hc; reflexivity |]. simpl in Hup. exact Hup.
    + destruct (decide (TrimSpace (Email c1) = "")) as [Hb | Hb].
      * apply (Hstep cm c1 w1 eq_refl).
        -- simpl. rewrite Hc. rewrite bool_decide_eq_true_2 by exact Hb. reflexivity.
        -- intros pre. simpl. rewrite Hc.
           rewrite bool_decide_eq_true_2 by exact Hb. reflexivity.
      * apply (Hstep ({[ Email c1 ]} ∪ cm) c1 w1 eq_refl).
        -- simpl. rewrite Hc. rewrite bool_decide_eq_false_2 by exact Hb. reflexivity.
        -- intros pre. simpl. rewrite Hc.
           rewrite bool_decide_eq_false_2 by exact Hb. reflexivity.
Qed.

Lemma resolved_emails_length (dbMap : dbSelector DB E) (contacts : list MailerDestination)
    (w : World DB) :
  (length (resolved_emails UnmarshalEmail dbMap contacts w) ≤ length contacts)%nat.
Proof.
  revert w. induction contacts as [| c l IH]; intros w; simpl; [lia |].
  destruct (updateEmail UnmarshalEmail dbMap c w) as [[c1 [err |]] w1]; simpl; [lia |].
  specialize (IH w1). lia.
Qed.

(** X8. Resolution makes one lookup per descriptor, in descriptor order,
    with the query of [updateEmail] and the id the descriptor came with, up
    to and including the first descriptor on which [updateEmail] fails, and
    no lookup after it; when it succeeds it has looked every descriptor up,
    repeated ones as often as they occur. It leaves nothing else in the
    trace. *)
Theorem resolve_one_lookup_each (range_order : gset string → list string)
    (dbMap : dbSelector DB E) (contacts : list MailerDestination) (w : World DB) :
  ∃ n : nat,
    (n ≤ length contacts)%nat
    ∧ trace (resolveDestinations TrimSpace UnmarshalEmail range_order contacts dbMap w).2
      = trace w ++ ((λ c, EvSelectOne registrationQuery (ID c)) <$> take n contacts)
    ∧ ((resolveDestinations TrimSpace UnmarshalEmail range_order contacts dbMap w).1.2
       = None → n = length contacts)
    ∧ (∀ err,
         (resolveDestinations TrimSpace UnmarshalEmail range_order contacts dbMap w).1.2
         = Some err →
         ∃ (pre post : list MailerDestination) (c : MailerDestination)
           (cm1 : gset string) (w1 : World DB),
           contacts = pre ++ c :: post
           ∧ n = S (length pre)
           ∧ resolve_loop TrimSpace UnmarshalEmail dbMap pre ∅ w = (inr cm1, w1)
           ∧ (updateEmail UnmarshalEmail dbMap c w1).1.2 = Some err).
Proof.
  pose proof (resolve_loop_lookups dbMap contacts ∅ w) as Hloop.
  unfold resolveDestinations.
  destruct (resolve_loop TrimSpace UnmarshalEmail dbMap contacts ∅ w) as [[err | cm] w1];
    simpl in *.
  - destruct Hloop as (pre & post & c & cm1 & w' & -> & Hpre & Hfail & Htr).
    exists (S (length pre)). split; [rewrite List.length_app; simpl; lia |].
    split.
    + rewrite Htr. do 2 f_equal.
      rewrite (cons_middle c pre post), app_assoc.
      rewrite take_app_length'; [reflexivity |].
      rewrite List.length_app. simpl. lia.
    + split; [discriminate |]. intros err' [= <-].
      exists pre, post, c, cm1, w'. repeat split; assumption.
  - exists (length contacts). split; [lia |].
    split; [rewrite firstn_all; exact Hloop |].
    split; [reflexivity | discriminate].
Qed.

(** X9. When the lookup succeeds and [UnmarshalEmail] fails on what it
    returned, resolution stops like on a failing lookup: it returns that
    error and no list, and looks no later descriptor up. *)
Theorem resolve_aborts_on_unmarshal_failure (range_order : gset string → list string)
    (dbMap : dbSelector DB E) (pre post : list MailerDestination)
    (c c1 c2 : MailerDestination) (cm : gset string) (w w1 : World DB)
    (db : DB) (err : error E) :
  resolve_loop TrimSpace UnmarshalEmail dbMap pre ∅ w = (inr cm, w1) →
  SelectOne dbMap (ext w1) c registrationQuery (ID c) = (db, (c1, None)) →
  UnmarshalEmail c1 = (c2, Some err) →
  resolveDestinations TrimSpace UnmarshalEmail range_order (pre ++ c :: post) dbMap w
  = (([], Some err),
     mkWorld db (trace w1 ++ [EvSelectOne registrationQuery (ID c)])).
Proof.
  intros Hpre Hsel Hparse. unfold resolveDestinations.
  rewrite resolve_loop_app, Hpre. simpl.
  unfold updateEmail. rewrite Hsel, Hparse. reflexivity.
Qed.

(** X10. A successful resolution returns at most as many addresses as there
    are descriptors, and returns none exactly when every descriptor resolved
    to a blank email. *)
Theorem resolve_length_bound (range_order : gset string → list string)
    (dbMap : dbSelector DB E) (contacts : list MailerDestination)
    (w w1 : World DB) (l : list string) :
  (∀ s, range_order s ≡ₚ elements s) →
  resolveDestinations TrimSpace UnmarshalEmail range_order contacts dbMap w
  = ((l, None), w1) →
  (length l ≤ length contacts)%nat
  ∧ (l = [] ↔ Forall (λ e, TrimSpace e = "")
                     (resolved_emails UnmarshalEmail dbMap contacts w)).
Proof.
  intros Hperm Hres.
  destruct (resolveDestinations_ok TrimSpace UnmarshalEmail range_order dbMap
              contacts w w1 l Hperm Hres) as (_ & Hnodup & Hmem).
  split.
  - etrans; [| apply resolved_emails_length].
    apply submseteq_length, NoDup_submseteq; [exact Hnodup |].
    intros e He. apply Hmem, He.
  - rewrite Forall_forall. split.
    + intros -> e He. destruct (decide (TrimSpace e = "")) as [Hb | Hb]; [exact Hb |].
      exfalso. apply (not_elem_of_nil e). apply Hmem. split; assumption.
    + intros Hall. destruct l as [| e l]; [reflexivity |].
      exfalso. assert (e ∈ e :: l) as He by left.
      apply Hmem in He as [He Hnb]. apply Hnb, Hall, He.
Qed.
End ResolverMore.

(** ** Resolution, then delivery *)

Section Pipeline.
Context {DB TS E : Type}.
Variable TrimSpace : string → string.
Variable UnmarshalEmail : MailerDestination → MailerDestination * option (error E).

End Pipeline.

(** ** The destinations read from a file of addresses *)

Lemma Split_newline_nonempty (s : string) : Split_newline s ≠ [].
Proof.
  destruct s as [| a s]; simpl; [discriminate |].
  destruct (Ascii.eqb a "010"); [discriminate |].
  destruct (Split_newline s); discriminate.
Qed.

Lemma concat_cons_char (sep : string) (a : ascii) (piece : string) (pieces : list string) :
  String.concat sep (String a piece :: pieces)
  = String a (String.concat sep (piece :: pieces)).
Proof. destruct pieces; reflexivity. Qed.

Lemma Split_newline_concat (s : string) :
  String.concat (String "010" EmptyString) (Split_newline s) = s.
Proof.
  induction s as [| a s IH]; simpl; [reflexivity |].
  destruct (Ascii.eqb a "010") eqn:Ha.
  - apply Ascii.eqb_eq in Ha as ->.
    destruct (Split_newline s) as [| piece pieces] eqn:Hs;
      [exfalso; exact (Split_newline_nonempty s Hs) |].
    simpl in *. rewrite IH. reflexivity.
  - destruct (Split_newline s) as [| piece pieces] eqn:Hs;
      [exfalso; exact (Split_newline_nonempty s Hs) |].
    rewrite concat_cons_char, IH. reflexivity.
Qed.

Lemma Split_newline_pieces (s : string) :
  Forall (λ piece, ¬ In "010"%char (list_ascii_of_string piece)) (Split_newline s).
Proof.
  induction s as [| a s IH]; simpl.
  - constructor; [intros [] | constructor].
  - destruct (Ascii.eqb a "010") eqn:Ha.
    + constructor; [intros [] | exact IH].
    + destruct (Split_newline s) as [| piece pieces]; [constructor; [| constructor] |].
      * simpl. intros [-> | []]. rewrite Ascii.eqb_refl in Ha. discriminate.
      * inversion IH as [| ? ? Hp Hps]; subst. constructor; [| exact Hps].
        simpl. intros [-> | Hin]; [| exact (Hp Hin)].
        rewrite Ascii.eqb_refl in Ha. discriminate.
Qed.

Lemma Split_newline_piece (piece rest : string) :
  ¬ In "010"%char (list_ascii_of_string piece) →
  Split_newline (piece +:+ String "010" rest) = piece :: Split_newline rest.
Proof.
  induction piece as [| a piece IH]; intros Hfree; simpl.
  - reflexivity.
  - simpl in Hfree.
    destruct (Ascii.eqb a "010") eqn:Ha;
      [apply Ascii.eqb_eq in Ha; exfalso; apply Hfree; left; exact Ha |].
    fold (String.app piece (String "010" rest)).
    rewrite IH by (intros Hin; apply Hfree; right; exact Hin). reflexivity.
Qed.

Lemma Split_newline_last (piece : string) :
  ¬ In "010"%char (list_ascii_of_string piece) → Split_newline piece = [piece].
Proof.
  induction piece as [| a piece IH]; intros Hfree; simpl; [reflexivity |].
  simpl in Hfree.
  destruct (Ascii.eqb a "010") eqn:Ha;
    [apply Ascii.eqb_eq in Ha; exfalso; apply Hfree; left; exact Ha |].
  rewrite IH by (intros Hin; apply Hfree; right; exact Hin). reflexivity.
Qed.

Lemma elems_slice_of_list (l : list string) : elems (slice_of_list l) = l.
Proof. unfold elems, slice_of_list. simpl. apply take_ge. lia. Qed.

(** X12. Under [-emails] the destinations are the lines of the file: joined
    with newlines they give the file back, none holds a newline, there is at
    least one (the empty file gives one empty destination), and the slice is
    filled to its capacity. *)
Theorem emails_job_destinations {TS E : Type} (mailClient : Mailer TS E)
    (subjectFlag body toBody : string) (sleepFlag startFlag endFlag : Z) :
  let d := destinations (emails_job mailClient subjectFlag body toBody
                                    sleepFlag startFlag endFlag) in
  cap d = len d ∧ (0 < len d)%nat
  ∧ String.concat (String "010" EmptyString) (elems d) = toBody
  ∧ Forall (λ piece, ¬ In "010"%char (list_ascii_of_string piece)) (elems d).
Proof.
  simpl. rewrite elems_slice_of_list. split; [reflexivity |]. split.
  - pose proof (Split_newline_nonempty toBody).
    destruct (Split_newline toBody); [congruence | simpl; lia].
  - split; [apply Split_newline_concat | apply Split_newline_pieces].
Qed.

(** X13. A file made of lines joined with newlines (none of them holding a
    newline, at least one line) gives these lines back as the destinations,
    blank ones included: index [i] of the checkpoint is line [i] of the
    file. *)
Theorem emails_job_lines {TS E : Type} (mailClient : Mailer TS E)
    (subjectFlag body : string) (lines : list string) (sleepFlag startFlag endFlag : Z) :
  lines ≠ [] →
  Forall (λ piece, ¬ In "010"%char (list_ascii_of_string piece)) lines →
  elems (destinations
           (emails_job mailClient subjectFlag body
                       (String.concat (String "010" EmptyString) lines)
                       sleepFlag startFlag endFlag))
  = lines.
Proof.
  intros Hne Hfree. simpl. rewrite elems_slice_of_list.
  induction lines as [| piece pieces IH]; [congruence |].
  inversion Hfree as [| ? ? Hp Hps]; subst.
  destruct pieces as [| piece' pieces].
  - simpl. apply Split_newline_last, Hp.
  - change (String.concat (String "010" EmptyString) (piece :: piece' :: pieces))
      with (piece +:+ String "010"
                  (String.concat (String "010" EmptyString) (piece' :: pieces))).
    rewrite Split_newline_piece by exact Hp.
    f_equal. apply IH; [discriminate | exact Hps].
Qed.

(** *** The further properties of the resolution on the example stores *)

Lemma resolve_aborts_on_unmarshal_failure_witness :
  resolveDestinations asciiTrimSpace picky_UnmarshalEmail elements
    ([account 1] ++ account 5 :: [account 2]) broken_accounts unseen
  = (([], Some (ExtError "unexpected end of JSON input")),
     mkWorld tt ([EvSelectOne registrationQuery 1] ++ [EvSelectOne registrationQuery 5])).
Proof.
  apply (resolve_aborts_on_unmarshal_failure asciiTrimSpace picky_UnmarshalEmail elements
           broken_accounts [account 1] [account 2] (account 5)
           (mkDest 5 (Some "{") "") (mkDest 5 (Some "{") "") {[ "b@x" ]}
           unseen (mkWorld tt [EvSelectOne registrationQuery 1]) tt
           (ExtError "unexpected end of JSON input")).
  - vm_compute. reflexivity.
  - vm_compute. reflexivity.
  - vm_compute. reflexivity.
Defined.

Lemma resolve_length_bound_witness :
  (length ["a@x"; "b@x"] ≤ length [account 1; account 2; account 4; account 3])%nat
  ∧ (["a@x"; "b@x"] = []
     ↔ Forall (λ e, asciiTrimSpace e = "")
              (resolved_emails plain_UnmarshalEmail accounts
                 [account 1; account 2; account 4; account 3] unseen)).
Proof.
  apply (resolve_length_bound asciiTrimSpace plain_UnmarshalEmail elements accounts
           [account 1; account 2; account 4; account 3] unseen
           (mkWorld tt (EvSelectOne registrationQuery <$> [1; 2; 4; 3]))).
  - intros s. reflexivity.
  - vm_compute. reflexivity.
Defined.


Lemma emails_job_lines_witness :
  elems (destinations
           (emails_job (@good_transport string) "subject" "body"
                       (String.concat (String "010" EmptyString) ["a@x"; ""; "b@x"; ""])
                       default_sleep default_start 0))
  = ["a@x"; ""; "b@x"; ""].
Proof.
  apply (emails_job_lines (@good_transport string) "subject" "body"
           ["a@x"; ""; "b@x"; ""] default_sleep default_start 0).
  - discriminate.
  - repeat constructor; vm_compute; intuition discriminate.
Defined.
